(** * sqlclosecheck: the legacy analyzer (pkg/analyzer/legacy.go)

    A shallow embedding of the closure-reachability walk ([isClosed],
    [getAction]), of the deferred-usage walk ([checkDeferred]) and of the
    driver loop ([Run]), with the properties the specification states about
    them.

    The SSA program is an arena: instructions and functions are referred to
    by index, because def-use links and static-callee links can form cycles.
    The walks are written with explicit fuel (one unit per nested call of
    [isClosed] or [checkDeferred]); a nil dereference is the outcome
    [Panics]. *)

From Stdlib Require Import List String ZArith Bool Arith Lia.
Import ListNotations.
Open Scope string_scope.
Open Scope list_scope.

(** ** Outcomes of a Go computation *)

Inductive outcome (A : Type) : Type :=
| Done (a : A)     (* the call returns a *)
| Panics           (* run-time panic: nil pointer dereference *)
| OutOfFuel.       (* the recursion is deeper than the fuel given *)

Arguments Done {A} a.
Arguments Panics {A}.
Arguments OutOfFuel {A}.

Definition bind {A B : Type} (m : outcome A) (k : A -> outcome B) : outcome B :=
  match m with
  | Done a => k a
  | Panics => Panics
  | OutOfFuel => OutOfFuel
  end.

Notation "x <- m ;; k" := (bind m (fun x => k))
  (at level 61, m at next level, right associativity).

(** ** Constants of the source *)

Definition rowsName : string := "Rows".
Definition stmtName : string := "Stmt".
Definition namedStmtName : string := "NamedStmt".
Definition closeMethod : string := "Close".

Definition sqlPackages : list string :=
  [ "database/sql";
    "github.com/jmoiron/sqlx";
    "github.com/jackc/pgx/v5";
    "github.com/jackc/pgx/v5/pgxpool" ].

Inductive action : Type :=
| actionUnhandled
| actionHandled
| actionReturned
| actionPassed
| actionClosed
| actionUnvaluedCall
| actionUnvaluedDefer
| actionNoOp.

(** ** go/types, as far as the analyzer looks at it *)

Inductive gotype : Type :=
| Named (pkg name : string)      (* *types.Named *)
| Pointer (elem : gotype)        (* *types.Pointer *)
| Basic (name : string).         (* any other type *)

(** types.Identical on these shapes. *)
Fixpoint Identical (a b : gotype) : bool :=
  match a, b with
  | Named p n, Named q m => String.eqb p q && String.eqb n m
  | Pointer x, Pointer y => Identical x y
  | Basic n, Basic m => String.eqb n m
  | _, _ => false
  end.

(** An element of [targetTypes []any]. *)
Inductive any : Type :=
| AnyType (t : gotype)
| AnyOther.

(** The type switch on a target type, lines 268-275 and 299-306:
    [*types.Pointer] and [*types.Named] are kept, anything else is skipped. *)
Definition targetShape (targetType : any) : option gotype :=
  match targetType with
  | AnyType (Pointer e) => Some (Pointer e)
  | AnyType (Named p n) => Some (Named p n)
  | _ => None
  end.

(** ** go/ssa, as far as the analyzer looks at it *)

Definition iid := nat.   (* index of an instruction *)
Definition fid := nat.   (* index of a function *)

(** The dynamic type of an ssa.Value, where the analyzer tests it. *)
Inductive valueKind : Type :=
| KFunction (f : fid)        (* *ssa.Function *)
| KMakeClosure (fn : fid)    (* *ssa.MakeClosure, with its Fn *)
| KFieldAddr                 (* *ssa.FieldAddr *)
| KValue.                    (* any other value *)

(** An ssa.Value: Referrers() is a pointer to a slice and is nil for
    globals, constants, builtins and named functions. *)
Record Value : Type := mkValue {
  Name : string;
  Type_ : gotype;
  Referrers : option (list iid);
  kind : valueKind
}.

(** ssa.CallCommon: Value is an interface and may be nil; Method is the
    name of the invoked interface method, when there is one. *)
Record CallCommon : Type := mkCall {
  CallValue : option Value;
  Method : option string
}.

(** CallCommon.StaticCallee of go/ssa: the function itself, or the function
    of a closure; nil otherwise. *)
Definition StaticCallee (c : CallCommon) : option fid :=
  match CallValue c with
  | Some v =>
      match kind v with
      | KFunction f => Some f
      | KMakeClosure f => Some f
      | _ => None
      end
  | None => None
  end.

Inductive instrOp : Type :=
| Defer (call : CallCommon)
| Call (call : CallCommon) (res : Value)   (* res: the call as a value *)
| Phi (referrers : list iid)
| MakeInterface (referrers : list iid)
| Store (addr : Value)
| UnOp (ty : gotype) (referrers : list iid)
| FieldAddr (referrers : list iid)
| Return (results : list Value)
| MakeClosure (fn : Value)
| OtherInstr.

Record Instruction : Type := mkInstr {
  Pos : Z;
  op : instrOp
}.

Record BasicBlock : Type := mkBlock {
  Instrs : list iid
}.

Record Function : Type := mkFunction {
  fnName : string;
  Recv : option gotype;          (* Signature.Recv().Type(), if a method *)
  Blocks : list BasicBlock
}.

(** An imported package of the program, with the type names it declares. *)
Record Package : Type := mkPackage {
  Path : string;
  TypeNames : list string
}.

(** buildssa.SSA together with the arena its pointers point into. *)
Record SSA : Type := mkSSA {
  SrcFuncs : list fid;
  funcAt : fid -> Function;
  instrAt : iid -> Instruction;
  Imported : list Package
}.

Record Diagnostic : Type := mkDiag {
  dPos : Z;
  dMessage : string
}.

Record targetValue : Type := mkTarget {
  value : Value;
  instr : Instruction
}.

(** analysis.Pass: the result of buildssa and the diagnostics reported so
    far. *)
Record Pass : Type := mkPass {
  ResultOf : option SSA;
  Diagnostics : list Diagnostic
}.

(** pass.Reportf *)
Definition Reportf (diags : list Diagnostic) (pos : Z) (msg : string)
  : list Diagnostic :=
  diags ++ [mkDiag pos msg].

Definition msgNotClosed : string := "Rows/Stmt/NamedStmt was not closed".
Definition msgUseDefer : string := "Close should use defer".

(** [*refs] for a pointer to a slice *)
Definition deref {A : Type} (p : option (list A)) : outcome (list A) :=
  match p with
  | Some l => Done l
  | None => Panics
  end.

(** [name == closeMethod] *)
Definition eqClose (s : string) : bool := String.eqb s closeMethod.

(** A loop whose body threads a state and never leaves the loop early. *)
Fixpoint forEach {A S : Type} (body : A -> S -> outcome S) (l : list A) (s : S)
  : outcome S :=
  match l with
  | [] => Done s
  | x :: rest => s' <- body x s ;; forEach body rest s'
  end.

(** ** The analyzer *)

Section Analyzer.

(** Functions of the package that live in other files. *)
Variable isTargetType : gotype -> list any -> bool.
Variable getTargetTypes : SSA -> list string -> list any.
Variable getClosableValues :
  SSA -> BasicBlock -> nat -> list any -> list targetValue.

Section Walks.

Variable pssa : SSA.
Variable targetTypes : list any.

Section Classifier.

(** The recursive call [isClosed(_, targetTypes)]. *)
Variable rec : list iid -> outcome bool.

(** [for _, b := range blocks { if isClosed(&b.Instrs, ..) { return .. } }] *)
Fixpoint anyBlockClosed (blocks : list BasicBlock) : outcome bool :=
  match blocks with
  | [] => Done false
  | b :: bs =>
      c <- rec (Instrs b) ;;
      if c then Done true else anyBlockClosed bs
  end.

(** Lines 250-260: the referrers of a store's address that are closures. *)
Fixpoint closureClosed (aRefs : list iid) : outcome bool :=
  match aRefs with
  | [] => Done false
  | aRef :: rest =>
      match op (instrAt pssa aRef) with
      | MakeClosure fn =>
          match kind fn with
          | KFunction f =>
              c <- anyBlockClosed (Blocks (funcAt pssa f)) ;;
              if c then Done true else closureClosed rest
          | _ => closureClosed rest
          end
      | _ => closureClosed rest
      end
  end.

(** Lines 265-282: one call of isClosed per matching target type. *)
Fixpoint unopHandled (instrType : gotype) (referrers : list iid)
         (tts : list any) : outcome bool :=
  match tts with
  | [] => Done false
  | targetType :: rest =>
      match targetShape targetType with
      | Some t =>
          if Identical instrType t then
            c <- rec referrers ;;
            if c then Done true else unopHandled instrType referrers rest
          else unopHandled instrType referrers rest
      | None => unopHandled instrType referrers rest
      end
  end.

(** Lines 296-311: is the type identical to a target type? *)
Definition matchesTarget (t : gotype) : bool :=
  existsb (fun targetType =>
             match targetShape targetType with
             | Some t' => Identical t t'
             | None => false
             end) targetTypes.

(** Lines 193-203: [isTarget], from the receiver of the static callee, or
    from the type of the called value when there is no static callee. *)
Definition calleeIsTarget (call : CallCommon) (v : Value) : bool :=
  match StaticCallee call with
  | Some f =>
      match Recv (funcAt pssa f) with
      | Some receiver => isTargetType receiver targetTypes
      | None => false
      end
  | None => isTargetType (Type_ v) targetTypes
  end.

(** The body of getAction, lines 154-317. The trace output is not
    modelled, but the evaluation of its arguments is, where it can
    fail: lines 159 and 187 call [instr.Call.Value.Name()] before the
    nil tests of lines 161 and 189. *)
Definition classify (instr : Instruction) : outcome action :=
  match op instr with
  | Defer call =>
      match CallValue call with
      | None => Panics
      | Some v =>
          if eqClose (Name v) then Done actionClosed
          else
            match Method call with
            | Some m =>
                if eqClose m then Done actionClosed
                else Done actionUnvaluedDefer
            | None =>
                match kind v with
                | KFunction f =>
                    c <- anyBlockClosed (Blocks (funcAt pssa f)) ;;
                    Done (if c then actionClosed else actionUnvaluedDefer)
                | _ => Done actionUnvaluedDefer
                end
            end
      end
  | Call call _ =>
      match CallValue call with
      | None => Panics
      | Some v =>
          let staticCallee := StaticCallee call in
          let isTarget := calleeIsTarget call v in
          if isTarget && eqClose (Name v) then Done actionClosed
          else if negb isTarget then
            match staticCallee with
            | None => Done actionUnhandled
            | Some f =>
                c <- anyBlockClosed (Blocks (funcAt pssa f)) ;;
                Done (if c then actionClosed else actionUnhandled)
            end
          else Done actionUnhandled
      end
  | Phi _ => Done actionPassed
  | MakeInterface _ => Done actionPassed
  | Store addr =>
      match kind addr with
      | KFieldAddr => Done actionReturned
      | _ =>
          aRefs <- deref (Referrers addr) ;;
          match aRefs with
          | [] => Done actionNoOp
          | _ =>
              c <- closureClosed aRefs ;;
              Done (if c then actionHandled else actionUnhandled)
          end
      end
  | UnOp instrType referrers =>
      c <- unopHandled instrType referrers targetTypes ;;
      Done (if c then actionHandled else actionUnhandled)
  | FieldAddr referrers =>
      c <- rec referrers ;;
      Done (if c then actionHandled else actionUnhandled)
  | Return results =>
      if existsb (fun result => matchesTarget (Type_ result)) results
      then Done actionReturned
      else Done actionUnhandled
  | MakeClosure _ => Done actionUnhandled
  | OtherInstr => Done actionUnhandled
  end.

(** The switch of isClosed, lines 121-147: does the walk stop here? *)
Definition closes (a : action) : bool :=
  match a with
  | actionClosed => true
  | actionHandled => true
  | _ => false
  end.

(** The loop of isClosed, lines 115-150. *)
Fixpoint walkRefs (refs : list iid) : outcome bool :=
  match refs with
  | [] => Done false
  | ref :: rest =>
      a <- classify (instrAt pssa ref) ;;
      if closes a then Done true else walkRefs rest
  end.

End Classifier.

(** isClosed, lines 113-151. *)
Fixpoint isClosed (fuel : nat) (refs : list iid) : outcome bool :=
  match fuel with
  | O => OutOfFuel
  | S fuel' => walkRefs (isClosed fuel') refs
  end.

(** getAction, with the fuel left for the calls of isClosed it makes. *)
Definition getAction (fuel : nat) (instr : Instruction) : outcome action :=
  classify (isClosed fuel) instr.

Section Deferred.

(** The recursive call [checkDeferred(pass, _, targetTypes, _)]; the
    state is the list of diagnostics of the pass. *)
Variable rec :
  list iid -> bool -> list Diagnostic -> outcome (list Diagnostic).

(** Lines 346-348 *)
Definition deferredBlocks (blocks : list BasicBlock)
  : list Diagnostic -> outcome (list Diagnostic) :=
  forEach (fun b diags => rec (Instrs b) true diags) blocks.

(** Lines 343-351 *)
Definition deferredClosures (aRefs : list iid)
  : list Diagnostic -> outcome (list Diagnostic) :=
  forEach (fun aRef diags =>
             match op (instrAt pssa aRef) with
             | MakeClosure fn =>
                 match kind fn with
                 | KFunction f =>
                     deferredBlocks (Blocks (funcAt pssa f)) diags
                 | _ => Done diags
                 end
             | _ => Done diags
             end) aRefs.

(** Lines 353-369 *)
Definition deferredUnOp (instrType : gotype) (referrers : list iid)
           (inDefer : bool)
  : list Diagnostic -> outcome (list Diagnostic) :=
  forEach (fun targetType diags =>
             match targetShape targetType with
             | Some t =>
                 if Identical instrType t
                 then rec referrers inDefer diags
                 else Done diags
             | None => Done diags
             end) targetTypes.

(** [instr.Call.Value != nil && instr.Call.Value.Name() == closeMethod] *)
Definition valueIsClose (call : CallCommon) : bool :=
  match CallValue call with
  | Some v => eqClose (Name v)
  | None => false
  end.

(** [instr.Call.Method != nil && instr.Call.Method.Name() == closeMethod] *)
Definition methodIsClose (call : CallCommon) : bool :=
  match Method call with
  | Some m => eqClose m
  | None => false
  end.

(** The loop of checkDeferred, lines 320-373; a [return] of the source
    ends the loop with the diagnostics reported so far. *)
Fixpoint walkDeferred (instrs : list iid) (inDefer : bool)
         (diags : list Diagnostic) : outcome (list Diagnostic) :=
  match instrs with
  | [] => Done diags
  | i :: rest =>
      let instr := instrAt pssa i in
      match op instr with
      | Defer call =>
          if valueIsClose call then Done diags
          else if methodIsClose call then Done diags
          else walkDeferred rest inDefer diags
      | Call call _ =>
          if valueIsClose call then
            Done (if inDefer then diags
                  else Reportf diags (Pos instr) msgUseDefer)
          else walkDeferred rest inDefer diags
      | Store addr =>
          aRefs <- deref (Referrers addr) ;;
          match aRefs with
          | [] => Done diags
          | _ =>
              diags' <- deferredClosures aRefs diags ;;
              walkDeferred rest inDefer diags'
          end
      | UnOp instrType referrers =>
          diags' <- deferredUnOp instrType referrers inDefer diags ;;
          walkDeferred rest inDefer diags'
      | FieldAddr referrers =>
          diags' <- rec referrers inDefer diags ;;
          walkDeferred rest inDefer diags'
      | _ => walkDeferred rest inDefer diags
      end
  end.

End Deferred.

(** checkDeferred, lines 319-374. *)
Fixpoint checkDeferred (fuel : nat) (instrs : list iid) (inDefer : bool)
         (diags : list Diagnostic) : outcome (list Diagnostic) :=
  match fuel with
  | O => OutOfFuel
  | S fuel' => walkDeferred (checkDeferred fuel') instrs inDefer diags
  end.

(** Lines 91-102 of Run: one closable value. *)
Definition checkTarget (fuel : nat) (tv : targetValue)
           (diags : list Diagnostic) : outcome (list Diagnostic) :=
  refs <- deref (Referrers (value tv)) ;;
  closed <- isClosed fuel refs ;;
  checkDeferred fuel refs false
    (if closed then diags
     else Reportf diags (Pos (instr tv)) msgNotClosed).

(** Lines 83-103 of Run: the instructions of one block. *)
Definition scanBlock (fuel : nat) (b : BasicBlock)
  : list Diagnostic -> outcome (list Diagnostic) :=
  forEach (fun i diags =>
             forEach (checkTarget fuel)
                     (getClosableValues pssa b i targetTypes) diags)
          (seq 0 (List.length (Instrs b))).

(** Lines 81-105 of Run. *)
Definition scanFuncs (fuel : nat) (funcs : list fid)
  : list Diagnostic -> outcome (list Diagnostic) :=
  forEach (fun f diags =>
             forEach (scanBlock fuel) (Blocks (funcAt pssa f)) diags)
          funcs.

End Walks.

(** Run, lines 66-108. The Go function returns (nil, nil) on every path;
    what it does is report to the pass. *)
Definition Run (fuel : nat) (pass : Pass) : outcome Pass :=
  match ResultOf pass with
  | None => Done pass
  | Some pssa =>
      let targetTypes := getTargetTypes pssa sqlPackages in
      match targetTypes with
      | [] => Done pass
      | _ =>
          diags <- scanFuncs pssa targetTypes fuel (SrcFuncs pssa)
                             (Diagnostics pass) ;;
          Done (mkPass (ResultOf pass) diags)
      end
  end.

End Analyzer.

(** ** The functions of the package that are declared in other files *)

(** Modelled from the spec: isTargetType is not in legacy.go. Section 4.3:
    type matching uses exact structural identity against each resolved
    target type, and only the named and pointer-to-named shapes are
    matched. *)
Definition isTargetType_spec (t : gotype) (targetTypes : list any) : bool :=
  existsb (fun targetType =>
             match targetShape targetType with
             | Some t' => Identical t t'
             | None => false
             end) targetTypes.

(** Modelled from the spec: getTargetTypes is not in legacy.go. Section 4.1:
    the types whose declared name is one of the tracked names, within an
    allow-listed package of the program, in pointer and in bare form. *)
Definition getTargetTypes_spec (pssa : SSA) (targetPackages : list string)
  : list any :=
  flat_map
    (fun sqlPkg =>
       flat_map
         (fun pkg =>
            if String.eqb (Path pkg) sqlPkg then
              flat_map
                (fun name =>
                   if existsb (String.eqb name) (TypeNames pkg)
                   then [AnyType (Pointer (Named sqlPkg name));
                         AnyType (Named sqlPkg name)]
                   else [])
                [rowsName; stmtName; namedStmtName]
            else [])
         (Imported pssa))
    targetPackages.

(** Modelled from the spec: getClosableValues is not in legacy.go.
    Section 4.2: a call whose produced value has a target type is recorded
    as a closable value, paired with the call. *)
Definition getClosableValues_spec (pssa : SSA) (b : BasicBlock) (i : nat)
           (targetTypes : list any) : list targetValue :=
  match nth_error (Instrs b) i with
  | Some id =>
      let instr := instrAt pssa id in
      match op instr with
      | Call _ res =>
          if isTargetType_spec (Type_ res) targetTypes
          then [mkTarget res instr]
          else []
      | _ => []
      end
  | None => []
  end.

(** ** Notions used by the statements *)

(** One outcome approximates another: it is the same, or it ran out of
    fuel. *)
Inductive approx {A : Type} : outcome A -> outcome A -> Prop :=
| approx_fuel (r : outcome A) : approx OutOfFuel r
| approx_same (r : outcome A) : approx r r.

(** The instruction lists into which getAction can pass the walk on from an
    instruction: the blocks of a static callee or of a deferred function,
    the blocks of the closures that capture a stored address, the referrers
    of a dereference or of a field address. *)
Definition closureBodies (pssa : SSA) (aRefs : list iid) : list (list iid) :=
  flat_map (fun aRef =>
              match op (instrAt pssa aRef) with
              | MakeClosure fn =>
                  match kind fn with
                  | KFunction f => map Instrs (Blocks (funcAt pssa f))
                  | _ => []
                  end
              | _ => []
              end) aRefs.

Definition followed (pssa : SSA) (instr : Instruction) : list (list iid) :=
  match op instr with
  | Defer call =>
      match CallValue call with
      | Some v =>
          match kind v with
          | KFunction f => map Instrs (Blocks (funcAt pssa f))
          | _ => []
          end
      | None => []
      end
  | Call call _ =>
      match StaticCallee call with
      | Some f => map Instrs (Blocks (funcAt pssa f))
      | None => []
      end
  | Store addr =>
      match Referrers addr with
      | Some aRefs => closureBodies pssa aRefs
      | None => []
      end
  | UnOp _ referrers => [referrers]
  | FieldAddr referrers => [referrers]
  | _ => []
  end.

(** The chain of static callees, closure bodies and followed def-use links
    is acyclic: a rank decreases along every link the walk can follow. *)
Definition acyclic (pssa : SSA) (rank : iid -> nat) : Prop :=
  forall i l j, In l (followed pssa (instrAt pssa i)) -> In j l ->
                rank j < rank i.

(** No instruction makes getAction dereference nil: calls and deferred
    calls have a value, and the address of a store has a referrer list
    unless it is a field address. *)
Definition noNilDeref (pssa : SSA) : Prop :=
  forall i,
    match op (instrAt pssa i) with
    | Defer call => CallValue call <> None
    | Call call _ => CallValue call <> None
    | Store addr => kind addr = KFieldAddr \/ Referrers addr <> None
    | _ => True
    end.

(** Instructions over which the loop of checkDeferred steps without doing
    anything. *)
Definition deferInert (instr : Instruction) : bool :=
  match op instr with
  | Defer call => negb (valueIsClose call) && negb (methodIsClose call)
  | Call call _ => negb (valueIsClose call)
  | Store _ => false
  | UnOp _ _ => false
  | FieldAddr _ => false
  | _ => true
  end.

(** A control-flow merge or an interface boxing. *)
Definition isMergeOrBox (instr : Instruction) : bool :=
  match op instr with
  | Phi _ => true
  | MakeInterface _ => true
  | _ => false
  end.

(** A return that carries a result of a target type, lines 293-312. *)
Definition returnsTarget (targetTypes : list any) (instr : Instruction) : Prop :=
  match op instr with
  | Return results =>
      exists result targetType t,
        In result results /\ In targetType targetTypes /\
        targetShape targetType = Some t /\
        Identical (Type_ result) t = true
  | _ => False
  end.

(** A store into the address of a struct field, line 242. *)
Definition storesInField (instr : Instruction) : Prop :=
  match op instr with
  | Store addr => kind addr = KFieldAddr
  | _ => False
  end.

(** A cleanup call that is not deferred, as checkDeferred tests it on
    line 331. *)
Definition bareCleanup (instr : Instruction) : bool :=
  match op instr with
  | Call call _ => valueIsClose call
  | _ => false
  end.

(** A deferred cleanup call, as checkDeferred tests it on lines 323-329. *)
Definition deferredCleanup (instr : Instruction) : bool :=
  match op instr with
  | Defer call => valueIsClose call || methodIsClose call
  | _ => false
  end.

(** A store whose address has no referrers, lines 246 and 339. *)
Definition deadStore (instr : Instruction) : Prop :=
  match op instr with
  | Store addr => Referrers addr = Some []
  | _ => False
  end.

(** The classification of a referrer lets the walk of isClosed go on. *)
Definition goesOn (isTargetType : gotype -> list any -> bool) (pssa : SSA)
           (targetTypes : list any) (fuel : nat) (r : iid) : Prop :=
  exists a, getAction isTargetType pssa targetTypes fuel (instrAt pssa r)
            = Done a /\
            a <> actionClosed /\ a <> actionHandled.

(** The scan of the blocks of a function finds a block that closes: the
    blocks before it are scanned and do not close. *)
Definition someBlockCloses (rec : list iid -> outcome bool)
           (blocks : list BasicBlock) : Prop :=
  exists before b after,
    blocks = before ++ b :: after /\
    Forall (fun b' => rec (Instrs b') = Done false) before /\
    rec (Instrs b) = Done true.

(** The diagnostics of an outcome, after those reported before. *)
Definition prepend (before : list Diagnostic)
           (r : outcome (list Diagnostic)) : outcome (list Diagnostic) :=
  match r with
  | Done emitted => Done (before ++ emitted)
  | Panics => Panics
  | OutOfFuel => OutOfFuel
  end.

(** The blocks of the closures among the referrers of a stored address, in
    the order in which lines 250-260 scan them. *)
Definition closureBlocks (pssa : SSA) (aRefs : list iid) : list BasicBlock :=
  flat_map (fun aRef =>
              match op (instrAt pssa aRef) with
              | MakeClosure fn =>
                  match kind fn with
                  | KFunction f => Blocks (funcAt pssa f)
                  | _ => []
                  end
              | _ => []
              end) aRefs.

(** The closable values of the program, in the order in which the loops of
    Run meet them (lines 81-91). *)
Definition closableValues
           (getClosableValues :
              SSA -> BasicBlock -> nat -> list any -> list targetValue)
           (pssa : SSA) (targetTypes : list any) : list targetValue :=
  flat_map
    (fun f =>
       flat_map
         (fun b =>
            flat_map (fun i => getClosableValues pssa b i targetTypes)
                     (seq 0 (List.length (Instrs b))))
         (Blocks (funcAt pssa f)))
    (SrcFuncs pssa).

(** A diagnostic of line 333, at a bare cleanup call of the program. *)
Definition useDeferAt (pssa : SSA) (x : Diagnostic) : Prop :=
  dMessage x = msgUseDefer /\
  exists i, bareCleanup (instrAt pssa i) = true /\
            dPos x = Pos (instrAt pssa i).

(** A diagnostic of line 98, at the instruction of one of the values. *)
Definition notClosedAt (tvs : list targetValue) (x : Diagnostic) : Prop :=
  dMessage x = msgNotClosed /\
  exists tv, In tv tvs /\ dPos x = Pos (instr tv).

(** The number of diagnostics "not closed" in a list. *)
Definition countNotClosed (diags : list Diagnostic) : nat :=
  List.length (filter (fun x => String.eqb (dMessage x) msgNotClosed) diags).

(** No call and no deferred call of the program is named Close. *)
Definition noCloseName (pssa : SSA) : Prop :=
  forall i, bareCleanup (instrAt pssa i) = false /\
            deferredCleanup (instrAt pssa i) = false.

(** An outcome that, when it is a result, is the given one. *)
Definition returnsOnly {A : Type} (a : A) (r : outcome A) : Prop :=
  r = Done a \/ r = Panics \/ r = OutOfFuel.

(** No store of the program has an address without a referrer list. *)
Definition noNilStore (pssa : SSA) : Prop :=
  forall i addr, op (instrAt pssa i) = Store addr -> Referrers addr <> None.

(** ** Concrete programs *)

Module Examples.

Definition ptrRows : gotype := Pointer (Named "database/sql" "Rows").
Definition ptrDB : gotype := Pointer (Named "database/sql" "DB").
Definition ptrFile : gotype := Pointer (Named "os" "File").
Definition funcT : gotype := Basic "func".

Definition sqlPkg : Package :=
  mkPackage "database/sql" ["DB"; "Rows"; "Stmt"; "Tx"].
Definition osPkg : Package := mkPackage "os" ["File"].

(** The function table shared by the programs: 0 is the analysed
    function, 1-3 are methods of database/sql, 4 is the Close method of os.File,
    5 is [func walk(r *sql.Rows) { walk(r) }] and
    6 is [func finish(r *sql.Rows) { defer r.Close() }]. *)
Definition fMain : fid := 0.
Definition fQuery : fid := 1.
Definition fClose : fid := 2.
Definition fNext : fid := 3.
Definition fFileClose : fid := 4.
Definition fWalk : fid := 5.
Definition fFinish : fid := 6.

Definition table (main walk finish : list BasicBlock) (f : fid) : Function :=
  nth f [ mkFunction "main" None main;
          mkFunction "Query" (Some ptrDB) [];
          mkFunction "Close" (Some ptrRows) [];
          mkFunction "Next" (Some ptrRows) [];
          mkFunction "Close" (Some ptrFile) [];
          mkFunction "walk" None walk;
          mkFunction "finish" None finish ]
      (mkFunction "" None []).

Definition fn (name : string) (f : fid) : Value :=
  mkValue name funcT None (KFunction f).
Definition static (name : string) (f : fid) : CallCommon :=
  mkCall (Some (fn name f)) None.
Definition reg (name : string) (t : gotype) (refs : list iid) : Value :=
  mkValue name t (Some refs) KValue.
Definition arena (l : list Instruction) (i : iid) : Instruction :=
  nth i l (mkInstr 0 OtherInstr).
Definition program (imports : list Package) (main walk finish : list BasicBlock)
           (l : list Instruction) : SSA :=
  mkSSA [fMain] (table main walk finish) (arena l) imports.

Definition query (pos : Z) (name : string) (refs : list iid) : Instruction :=
  mkInstr pos (Call (static "Query" fQuery) (reg name ptrRows refs)).
Definition callNext (pos : Z) : Instruction :=
  mkInstr pos (Call (static "Next" fNext) (reg "t8" (Basic "bool") [])).
Definition callClose (pos : Z) : Instruction :=
  mkInstr pos (Call (static "Close" fClose) (reg "t9" (Basic "error") [])).
Definition deferClose (pos : Z) : Instruction :=
  mkInstr pos (Defer (static "Close" fClose)).

(** [rows, _ := db.Query(q); for rows.Next() {}; rows.Close()] *)
Definition bareClose : SSA :=
  program [sqlPkg] [mkBlock [0; 1; 2]] [] []
          [ query 10 "t0" [1; 2]; callNext 20; callClose 30 ].

(** [rows, _ := db.Query(q); defer rows.Close(); for rows.Next() {}] *)
Definition deferredClose : SSA :=
  program [sqlPkg] [mkBlock [0; 1; 2]] [] []
          [ query 10 "t0" [1; 2]; deferClose 20; callNext 30 ].

(** [if c { rows, _ = db.Query(q1) } else { rows, _ = db.Query(q2) };
    defer rows.Close()]: both results flow into a Phi, whose value is
    closed. *)
Definition merged : SSA :=
  program [sqlPkg] [mkBlock [0]; mkBlock [1]; mkBlock [2; 3]] [] []
          [ query 10 "t0" [2]; query 20 "t1" [2];
            mkInstr 30 (Phi [3]); deferClose 40 ].

(** [rows, _ := db.Query(q); return rows] *)
Definition returned : SSA :=
  program [sqlPkg] [mkBlock [0; 1]] [] []
          [ query 10 "t0" [1];
            mkInstr 20 (Return [reg "t0" ptrRows [1]]) ].

(** The program of [bareClose] in a package that imports none of the
    supported libraries. *)
Definition noSql : SSA :=
  program [osPkg] [mkBlock [0; 1; 2]] [] []
          [ query 10 "t0" [1; 2]; callNext 20; callClose 30 ].

(** [rows, _ := db.Query(q); walk(rows)] with the recursive [walk]. *)
Definition recursive : SSA :=
  program [sqlPkg] [mkBlock [0; 1]] [mkBlock [2]] []
          [ query 10 "t0" [1];
            mkInstr 20 (Call (static "walk" fWalk) (reg "t1" (Basic "unit") []));
            mkInstr 30 (Call (static "walk" fWalk) (reg "t2" (Basic "unit") [])) ].

(** [rows, _ := db.Query(q); finish(rows)] with [finish] deferring the
    close. *)
Definition delegated : SSA :=
  program [sqlPkg] [mkBlock [0; 1]] [] [mkBlock [2]]
          [ query 10 "t0" [1];
            mkInstr 20 (Call (static "finish" fFinish) (reg "t1" (Basic "unit") []));
            deferClose 30 ].

(** The program of [delegated] inside a package that declares the target
    type itself: [finish] is a method of the target type,
    [func (r *Rows) finish() { defer r.Close() }], called as
    [rows.finish()]. *)
Definition ownMethod : SSA :=
  mkSSA [fMain]
        (fun f =>
           if Nat.eqb f fFinish
           then mkFunction "finish" (Some ptrRows) [mkBlock [2]]
           else table [mkBlock [0; 1]] [] [] f)
        (arena [ query 10 "t0" [1];
                 mkInstr 20 (Call (static "finish" fFinish)
                                  (reg "t1" (Basic "unit") []));
                 deferClose 30 ])
        [sqlPkg].

Definition delegatedRank (i : iid) : nat :=
  match i with
  | 1 => 1
  | _ => 0
  end.

(** A hand-made program for the branch of lines 246 and 339: a query, a
    store of its result into an address whose referrer list is empty, and
    a bare Close. (go/ssa lists a store among the referrers of its own
    address, so no Go source builds this store.) *)
Definition deadStore : SSA :=
  program [sqlPkg] [mkBlock [0; 1; 2]] [] []
          [ query 10 "t0" [1; 2];
            mkInstr 20 (Store (reg "t1" (Pointer ptrRows) []));
            callClose 30 ].

(** [defer f.Close()] for an [f *os.File]. *)
Definition deferFileClose : Instruction :=
  mkInstr 50 (Defer (static "Close" fFileClose)).

(** [q.Query(s)] for a [q] of an interface type: dynamic dispatch. *)
Definition invokeQuery : Instruction :=
  mkInstr 60 (Call (mkCall (Some (reg "q" (Named "main" "Querier") [0]))
                           (Some "Query"))
                   (reg "t0" (Basic "unit") [])).

(** [defer g()] for a local [g] of function type: an indirect call. *)
Definition deferIndirect : Instruction :=
  mkInstr 70 (Defer (mkCall (Some (reg "g" funcT [0])) None)).

(** [defer c.Close()] for a [c] of type io.Closer: dynamic dispatch. *)
Definition deferInvokeClose : Instruction :=
  mkInstr 80 (Defer (mkCall (Some (reg "c" (Named "io" "Closer") [0]))
                            (Some "Close"))).

(** [rows, _ := db.Query(q); defer func() { rows.Close() }()]: the
    variable is captured, so it lives in a cell (instruction 1 stores into
    it), the closure (instruction 2) refers to the cell and its body
    (function 6, instructions 4 and 5) loads the cell and calls Close. *)
Definition captured : SSA :=
  program [sqlPkg] [mkBlock [0; 1; 2; 3]] [] [mkBlock [4; 5]]
          [ query 10 "t0" [1];
            mkInstr 20 (Store (reg "t1" (Pointer ptrRows) [1; 2]));
            mkInstr 30 (MakeClosure (fn "main$1" fFinish));
            mkInstr 40 (Defer (mkCall (Some (mkValue "t2" funcT (Some [3])
                                                     (KMakeClosure fFinish)))
                                      None));
            mkInstr 50 (UnOp ptrRows [5]);
            callClose 60 ].

(** [rows, _ := db.Query(q); kept = rows; rows.Close()] for a package-level
    variable [kept]: the address of the store is a global, whose
    Referrers() is nil. *)
Definition storedGlobal : SSA :=
  program [sqlPkg] [mkBlock [0; 1; 2]] [] []
          [ query 10 "t0" [1; 2];
            mkInstr 20 (Store (mkValue "kept" (Pointer ptrRows) None KValue));
            callClose 30 ].

(** [rows, _ := db.Query(q); for rows.Next() {}]: nothing is named Close. *)
Definition neverClosed : SSA :=
  program [sqlPkg] [mkBlock [0; 1]] [] []
          [ query 10 "t0" [1]; callNext 20 ].

(** The program of [bareClose] with, between the two calls, a call whose
    common part has no value. *)
Definition withoutValue : SSA :=
  program [sqlPkg] [mkBlock [0; 1; 2]] [] []
          [ query 10 "t0" [1; 2];
            mkInstr 20 (Call (mkCall None None) (reg "t1" (Basic "unit") []));
            callClose 30 ].

(** [func drain(rows *sql.Rows) { for rows.Next() {} }]: no call of the
    function produces a value of a target type. *)
Definition parameterOnly : SSA :=
  program [sqlPkg] [mkBlock [0]] [] [] [ callNext 10 ].

Definition capturedRank (i : iid) : nat :=
  match i with
  | 1 => 2
  | 4 => 1
  | _ => 0
  end.

(** pgx: Rows is an interface of github.com/jackc/pgx/v5, so a method of a
    rows value is invoked: the common part of the call has the receiver
    as its value and the method in Method. *)
Definition pgxRows : gotype := Named "github.com/jackc/pgx/v5" "Rows".
Definition pgxPkg : Package :=
  mkPackage "github.com/jackc/pgx/v5" ["Conn"; "Rows"; "Tx"].

Definition pgxTable (main : list BasicBlock) (f : fid) : Function :=
  nth f [ mkFunction "main" None main;
          mkFunction "Query"
                     (Some (Pointer (Named "github.com/jackc/pgx/v5" "Conn")))
                     [] ]
      (mkFunction "" None []).

Definition pgxQuery (pos : Z) (refs : list iid) : Instruction :=
  mkInstr pos (Call (static "Query" fQuery) (reg "t0" pgxRows refs)).
Definition invokeRows (method : string) (refs : list iid) : CallCommon :=
  mkCall (Some (reg "t0" pgxRows refs)) (Some method).

(** [rows, _ := conn.Query(ctx, q); for rows.Next() {}; rows.Close()] *)
Definition pgxBareClose : SSA :=
  mkSSA [fMain] (pgxTable [mkBlock [0; 1; 2]])
        (arena [ pgxQuery 10 [1; 2];
                 mkInstr 20 (Call (invokeRows "Next" [1; 2])
                                  (reg "t1" (Basic "bool") []));
                 mkInstr 30 (Call (invokeRows "Close" [1; 2])
                                  (reg "t2" (Basic "unit") [])) ])
        [pgxPkg].

(** [rows, _ := conn.Query(ctx, q); defer rows.Close(); for rows.Next() {}] *)
Definition pgxDeferredClose : SSA :=
  mkSSA [fMain] (pgxTable [mkBlock [0; 1; 2]])
        (arena [ pgxQuery 10 [1; 2];
                 mkInstr 20 (Defer (invokeRows "Close" [1; 2]));
                 mkInstr 30 (Call (invokeRows "Next" [1; 2])
                                  (reg "t1" (Basic "bool") [])) ])
        [pgxPkg].

Definition targets (pssa : SSA) : list any :=
  getTargetTypes_spec pssa sqlPackages.

Definition run (fuel : nat) (pssa : SSA) : outcome Pass :=
  Run isTargetType_spec getTargetTypes_spec getClosableValues_spec
      fuel (mkPass (Some pssa) []).

End Examples.

(** ** Outcomes and loops *)

Lemma approx_bind {A B : Type} (m1 m2 : outcome A) (k1 k2 : A -> outcome B) :
  approx m1 m2 -> (forall a, approx (k1 a) (k2 a)) ->
  approx (bind m1 k1) (bind m2 k2).
Proof.
  intros Hm Hk. destruct Hm as [r | r].
  - constructor.
  - destruct r; simpl; auto; constructor.
Qed.

Lemma approx_done {A : Type} (a : A) (r : outcome A) :
  approx (Done a) r -> r = Done a.
Proof. intros H. inversion H; reflexivity. Qed.

Lemma approx_trans {A : Type} (r1 r2 r3 : outcome A) :
  approx r1 r2 -> approx r2 r3 -> approx r1 r3.
Proof.
  intros H12 H23. destruct H12; [constructor | assumption].
Qed.

Lemma approx_forEach {A S : Type} (b1 b2 : A -> S -> outcome S) (l : list A) :
  (forall x s, approx (b1 x s) (b2 x s)) ->
  forall s, approx (forEach b1 l s) (forEach b2 l s).
Proof.
  intros Hb. induction l as [| x rest IH]; intros s; simpl.
  - constructor.
  - apply approx_bind; auto.
Qed.

Lemma prepend_app (d e : list Diagnostic) (r : outcome (list Diagnostic)) :
  prepend (d ++ e) r = prepend d (prepend e r).
Proof. destruct r; simpl; try reflexivity. now rewrite app_assoc. Qed.

Lemma prepend_bind (d : list Diagnostic) (m : outcome (list Diagnostic))
      (k : list Diagnostic -> outcome (list Diagnostic)) :
  (forall e, k (d ++ e) = prepend d (k e)) ->
  bind (prepend d m) k = prepend d (bind m k).
Proof. intros Hk. destruct m; simpl; auto. Qed.

Lemma forEach_frame {A : Type}
      (body : A -> list Diagnostic -> outcome (list Diagnostic)) (l : list A) :
  (forall x d, body x d = prepend d (body x [])) ->
  forall d, forEach body l d = prepend d (forEach body l []).
Proof.
  intros Hb. induction l as [| x rest IH]; intros d; simpl.
  - now rewrite app_nil_r.
  - rewrite (Hb x d). apply prepend_bind.
    intros e. rewrite (IH (d ++ e)), (IH e). apply prepend_app.
Qed.

(** ** More fuel never changes a result *)

Section Monotone.

Variable isTargetType : gotype -> list any -> bool.
Variable pssa : SSA.
Variable targetTypes : list any.

Local Abbreviation isClosed' := (isClosed isTargetType pssa targetTypes).
Local Abbreviation getAction' := (getAction isTargetType pssa targetTypes).
Local Abbreviation classify' := (classify isTargetType pssa targetTypes).
Local Abbreviation checkDeferred' := (checkDeferred pssa targetTypes).

Section OneStep.

Variables rec1 rec2 : list iid -> outcome bool.
Hypothesis Hrec : forall l, approx (rec1 l) (rec2 l).

Lemma anyBlockClosed_approx (blocks : list BasicBlock) :
  approx (anyBlockClosed rec1 blocks) (anyBlockClosed rec2 blocks).
Proof.
  induction blocks as [| b bs IH]; simpl.
  - constructor.
  - apply approx_bind; [apply Hrec |].
    intros [|]; [constructor | exact IH].
Qed.

Lemma closureClosed_approx (aRefs : list iid) :
  approx (closureClosed pssa rec1 aRefs) (closureClosed pssa rec2 aRefs).
Proof.
  induction aRefs as [| aRef rest IH]; simpl.
  - constructor.
  - destruct (op (instrAt pssa aRef)); try exact IH.
    destruct (kind fn); try exact IH.
    apply approx_bind; [apply anyBlockClosed_approx |].
    intros [|]; [constructor | exact IH].
Qed.

Lemma unopHandled_approx (t : gotype) (referrers : list iid)
      (tts : list any) :
  approx (unopHandled rec1 t referrers tts)
         (unopHandled rec2 t referrers tts).
Proof.
  induction tts as [| tt rest IH]; simpl.
  - constructor.
  - destruct (targetShape tt); try exact IH.
    destruct (Identical t g); try exact IH.
    apply approx_bind; [apply Hrec |].
    intros [|]; [constructor | exact IH].
Qed.

Lemma classify_approx (instr : Instruction) :
  approx (classify' rec1 instr) (classify' rec2 instr).
Proof.
  unfold classify. destruct (op instr); try constructor.
  - destruct (CallValue call); [| constructor].
    destruct (eqClose (Name v)); [constructor |].
    destruct (Method call); [constructor |].
    destruct (kind v); try constructor.
    apply approx_bind; [apply anyBlockClosed_approx | intros; constructor].
  - destruct (CallValue call); [| constructor]. cbv zeta.
    match goal with |- context [andb ?b _] => destruct b end; simpl.
    + destruct (eqClose (Name v)); constructor.
    + destruct (StaticCallee call); [| constructor].
      apply approx_bind; [apply anyBlockClosed_approx | intros; constructor].
  - destruct (kind addr); try constructor;
      (destruct (Referrers addr) as [[| a l] |]; cbn [bind deref];
       try constructor;
       apply approx_bind; [apply closureClosed_approx | intros; constructor]).
  - apply approx_bind; [apply unopHandled_approx | intros; constructor].
  - apply approx_bind; [apply Hrec | intros; constructor].
Qed.

Lemma walkRefs_approx (refs : list iid) :
  approx (walkRefs isTargetType pssa targetTypes rec1 refs)
         (walkRefs isTargetType pssa targetTypes rec2 refs).
Proof.
  induction refs as [| r rest IH]; simpl.
  - constructor.
  - apply approx_bind; [apply classify_approx |].
    intros a. destruct (closes a); [constructor | exact IH].
Qed.

End OneStep.

Lemma isClosed_step (fuel : nat) :
  forall refs, approx (isClosed' fuel refs) (isClosed' (S fuel) refs).
Proof.
  induction fuel as [| n IH]; intros refs.
  - constructor.
  - change (approx (walkRefs isTargetType pssa targetTypes (isClosed' n) refs)
                   (walkRefs isTargetType pssa targetTypes
                             (isClosed' (S n)) refs)).
    apply walkRefs_approx. exact IH.
Qed.

Lemma isClosed_mono (n m : nat) (refs : list iid) :
  n <= m -> approx (isClosed' n refs) (isClosed' m refs).
Proof.
  induction 1 as [| m Hle IH].
  - constructor.
  - eapply approx_trans; [exact IH | apply isClosed_step].
Qed.

Lemma getAction_mono (n m : nat) (instr : Instruction) :
  n <= m -> approx (getAction' n instr) (getAction' m instr).
Proof.
  intros Hle. apply classify_approx. intros l. now apply isClosed_mono.
Qed.

Section OneStepDeferred.

Variables rec1 rec2 :
  list iid -> bool -> list Diagnostic -> outcome (list Diagnostic).
Hypothesis Hrec : forall l b d, approx (rec1 l b d) (rec2 l b d).

Lemma deferredBlocks_approx (blocks : list BasicBlock) (d : list Diagnostic) :
  approx (deferredBlocks rec1 blocks d) (deferredBlocks rec2 blocks d).
Proof. apply approx_forEach. intros; apply Hrec. Qed.

Lemma deferredClosures_approx (aRefs : list iid) (d : list Diagnostic) :
  approx (deferredClosures pssa rec1 aRefs d)
         (deferredClosures pssa rec2 aRefs d).
Proof.
  apply approx_forEach. intros x s.
  destruct (op (instrAt pssa x)); try constructor.
  destruct (kind fn); try constructor.
  apply deferredBlocks_approx.
Qed.

Lemma deferredUnOp_approx (t : gotype) (referrers : list iid) (b : bool)
      (d : list Diagnostic) :
  approx (deferredUnOp targetTypes rec1 t referrers b d)
         (deferredUnOp targetTypes rec2 t referrers b d).
Proof.
  apply approx_forEach. intros x s.
  destruct (targetShape x); try constructor.
  destruct (Identical t g); [apply Hrec | constructor].
Qed.

Lemma walkDeferred_approx (instrs : list iid) (b : bool) :
  forall d,
    approx (walkDeferred pssa targetTypes rec1 instrs b d)
           (walkDeferred pssa targetTypes rec2 instrs b d).
Proof.
  induction instrs as [| i rest IH]; intros d; simpl.
  - constructor.
  - destruct (op (instrAt pssa i)); try apply IH.
    + destruct (valueIsClose call); [constructor |].
      destruct (methodIsClose call); [constructor | apply IH].
    + destruct (valueIsClose call); [constructor | apply IH].
    + destruct (Referrers addr) as [[| a l] |]; cbn [bind deref];
        try constructor.
      apply approx_bind; [apply deferredClosures_approx | apply IH].
    + apply approx_bind; [apply deferredUnOp_approx | apply IH].
    + apply approx_bind; [apply Hrec | apply IH].
Qed.

End OneStepDeferred.

Lemma checkDeferred_step (fuel : nat) :
  forall instrs b d,
    approx (checkDeferred' fuel instrs b d)
           (checkDeferred' (S fuel) instrs b d).
Proof.
  induction fuel as [| n IH]; intros instrs b d.
  - constructor.
  - change (approx (walkDeferred pssa targetTypes (checkDeferred' n) instrs b d)
                   (walkDeferred pssa targetTypes (checkDeferred' (S n))
                                 instrs b d)).
    apply walkDeferred_approx. exact IH.
Qed.

Lemma checkDeferred_mono (n m : nat) (instrs : list iid) (b : bool)
      (d : list Diagnostic) :
  n <= m -> approx (checkDeferred' n instrs b d) (checkDeferred' m instrs b d).
Proof.
  induction 1 as [| m Hle IH].
  - constructor.
  - eapply approx_trans; [exact IH | apply checkDeferred_step].
Qed.

End Monotone.

(** ** Reporting only appends *)

Section Frame.

Variable isTargetType : gotype -> list any -> bool.
Variable getClosableValues :
  SSA -> BasicBlock -> nat -> list any -> list targetValue.
Variable pssa : SSA.
Variable targetTypes : list any.

Local Abbreviation checkDeferred' := (checkDeferred pssa targetTypes).

Lemma prepend_done (d : list Diagnostic) : Done d = prepend d (Done []).
Proof. simpl. now rewrite app_nil_r. Qed.

Section OneStepFrame.

Variable rec : list iid -> bool -> list Diagnostic -> outcome (list Diagnostic).
Hypothesis Hrec : forall l b d, rec l b d = prepend d (rec l b []).

Lemma deferredBlocks_frame (blocks : list BasicBlock) (d : list Diagnostic) :
  deferredBlocks rec blocks d = prepend d (deferredBlocks rec blocks []).
Proof. apply forEach_frame. intros; apply Hrec. Qed.

Lemma deferredClosures_frame (aRefs : list iid) (d : list Diagnostic) :
  deferredClosures pssa rec aRefs d
  = prepend d (deferredClosures pssa rec aRefs []).
Proof.
  apply forEach_frame. intros x e.
  destruct (op (instrAt pssa x)); try apply prepend_done.
  destruct (kind fn); try apply prepend_done.
  apply deferredBlocks_frame.
Qed.

Lemma deferredUnOp_frame (t : gotype) (referrers : list iid) (b : bool)
      (d : list Diagnostic) :
  deferredUnOp targetTypes rec t referrers b d
  = prepend d (deferredUnOp targetTypes rec t referrers b []).
Proof.
  apply forEach_frame. intros x e.
  destruct (targetShape x); try apply prepend_done.
  destruct (Identical t g); [apply Hrec | apply prepend_done].
Qed.

Lemma walkDeferred_frame (instrs : list iid) (b : bool) :
  forall d,
    walkDeferred pssa targetTypes rec instrs b d
    = prepend d (walkDeferred pssa targetTypes rec instrs b []).
Proof.
  assert (Hk : forall (k : list Diagnostic -> outcome (list Diagnostic)) d m,
             (forall d', k d' = prepend d' (k [])) ->
             bind (prepend d m) k = prepend d (bind m k)).
  { intros k d m Hk. apply prepend_bind. intros e.
    rewrite (Hk (d ++ e)), (Hk e). apply prepend_app. }
  induction instrs as [| i rest IH]; intros d; simpl.
  - apply prepend_done.
  - destruct (op (instrAt pssa i)); try apply IH.
    + destruct (valueIsClose call); [apply prepend_done |].
      destruct (methodIsClose call); [apply prepend_done | apply IH].
    + destruct (valueIsClose call); [| apply IH].
      destruct b; [apply prepend_done | reflexivity].
    + destruct (Referrers addr) as [[| a l] |]; cbn [bind deref];
        [apply prepend_done | | reflexivity].
      rewrite deferredClosures_frame. now apply Hk.
    + rewrite deferredUnOp_frame. now apply Hk.
    + rewrite Hrec. now apply Hk.
Qed.

End OneStepFrame.

Lemma checkDeferred_frame (fuel : nat) :
  forall instrs b d,
    checkDeferred' fuel instrs b d = prepend d (checkDeferred' fuel instrs b []).
Proof.
  induction fuel as [| n IH]; intros instrs b d.
  - reflexivity.
  - apply (walkDeferred_frame (checkDeferred' n) IH).
Qed.

Lemma checkTarget_frame (fuel : nat) (tv : targetValue) (d : list Diagnostic) :
  checkTarget isTargetType pssa targetTypes fuel tv d
  = prepend d (checkTarget isTargetType pssa targetTypes fuel tv []).
Proof.
  unfold checkTarget.
  destruct (Referrers (value tv)) as [refs |]; cbn [bind deref]; [| reflexivity].
  destruct (isClosed isTargetType pssa targetTypes fuel refs) as [c | |];
    cbn [bind]; try reflexivity.
  destruct c.
  - apply checkDeferred_frame.
  - rewrite checkDeferred_frame.
    rewrite (checkDeferred_frame fuel refs false (Reportf [] _ _)).
    rewrite <- prepend_app. reflexivity.
Qed.

Lemma scanBlock_frame (fuel : nat) (b : BasicBlock) (d : list Diagnostic) :
  scanBlock isTargetType getClosableValues pssa targetTypes fuel b d
  = prepend d (scanBlock isTargetType getClosableValues pssa targetTypes
                         fuel b []).
Proof.
  apply forEach_frame. intros i e.
  apply forEach_frame. intros tv e'. apply checkTarget_frame.
Qed.

Lemma scanFuncs_frame (fuel : nat) (funcs : list fid) (d : list Diagnostic) :
  scanFuncs isTargetType getClosableValues pssa targetTypes fuel funcs d
  = prepend d (scanFuncs isTargetType getClosableValues pssa targetTypes
                         fuel funcs []).
Proof.
  apply forEach_frame. intros f e.
  apply forEach_frame. intros b e'. apply scanBlock_frame.
Qed.

Lemma scanFuncs_mono (n m : nat) (funcs : list fid) (d : list Diagnostic) :
  n <= m ->
  approx (scanFuncs isTargetType getClosableValues pssa targetTypes n funcs d)
         (scanFuncs isTargetType getClosableValues pssa targetTypes m funcs d).
Proof.
  intros Hle. revert d. apply approx_forEach. intros f.
  apply approx_forEach. intros b.
  apply approx_forEach. intros i.
  apply approx_forEach. intros tv e. unfold checkTarget.
  apply approx_bind; [constructor |]. intros refs.
  apply approx_bind; [now apply isClosed_mono |]. intros c.
  now apply checkDeferred_mono.
Qed.

End Frame.

(** ** The closure-reachability walk *)

Section Reachability.

Variable isTargetType : gotype -> list any -> bool.
Variable pssa : SSA.
Variable targetTypes : list any.

Local Abbreviation isClosed' := (isClosed isTargetType pssa targetTypes).
Local Abbreviation getAction' := (getAction isTargetType pssa targetTypes).
Local Abbreviation checkTarget' := (checkTarget isTargetType pssa targetTypes).

Local Abbreviation goesOn := (goesOn isTargetType pssa targetTypes).

Lemma closes_false (a : action) :
  a <> actionClosed -> a <> actionHandled -> closes a = false.
Proof. intros H1 H2. destruct a; simpl; congruence. Qed.

Lemma isClosed_cons (fuel : nat) (r : iid) (rest : list iid) :
  isClosed' (S fuel) (r :: rest)
  = (a <- getAction' fuel (instrAt pssa r) ;;
     if closes a then Done true else isClosed' (S fuel) rest).
Proof. reflexivity. Qed.

Lemma isClosed_skip (fuel : nat) (pre rest : list iid) :
  Forall (goesOn fuel) pre ->
  isClosed' (S fuel) (pre ++ rest) = isClosed' (S fuel) rest.
Proof.
  induction 1 as [| r pre (a & Ha & Hc & Hh) _ IH]; [reflexivity |].
  rewrite <- app_comm_cons, isClosed_cons, Ha. cbn [bind].
  now rewrite (closes_false a Hc Hh).
Qed.

Lemma isClosed_exhausted (fuel : nat) (refs : list iid) :
  Forall (goesOn fuel) refs -> isClosed' (S fuel) refs = Done false.
Proof.
  intros H. rewrite <- (app_nil_r refs). now rewrite isClosed_skip.
Qed.

Lemma walkDeferred_inert
      (rec : list iid -> bool -> list Diagnostic -> outcome (list Diagnostic))
      (pre rest : list iid) (b : bool) (d : list Diagnostic) :
  Forall (fun r => deferInert (instrAt pssa r) = true) pre ->
  walkDeferred pssa targetTypes rec (pre ++ rest) b d
  = walkDeferred pssa targetTypes rec rest b d.
Proof.
  induction 1 as [| r pre Hr _ IH]; [reflexivity |].
  rewrite <- app_comm_cons. cbn [walkDeferred]. unfold deferInert in Hr.
  destruct (op (instrAt pssa r)); try discriminate; try exact IH.
  - apply andb_prop in Hr as [Hv Hm].
    apply negb_true_iff in Hv, Hm. now rewrite Hv, Hm.
  - apply negb_true_iff in Hr. now rewrite Hr.
Qed.

Lemma checkDeferred_inert (fuel : nat) (refs : list iid) (b : bool)
      (d : list Diagnostic) :
  Forall (fun r => deferInert (instrAt pssa r) = true) refs ->
  checkDeferred pssa targetTypes (S fuel) refs b d = Done d.
Proof.
  intros H. cbn [checkDeferred]. rewrite <- (app_nil_r refs).
  now rewrite walkDeferred_inert.
Qed.

(** A value none of whose referrers closes, and whose referrers the
    deferred-usage walk steps over, gets the one diagnostic "not closed". *)
Lemma checkTarget_unclosed (fuel : nat) (tv : targetValue) (refs : list iid)
      (d : list Diagnostic) :
  Referrers (value tv) = Some refs ->
  Forall (goesOn fuel) refs ->
  Forall (fun r => deferInert (instrAt pssa r) = true) refs ->
  checkTarget' (S fuel) tv d = Done (Reportf d (Pos (instr tv)) msgNotClosed).
Proof.
  intros Hrefs Hgo Hinert. unfold checkTarget. rewrite Hrefs. cbn [bind deref].
  rewrite (isClosed_exhausted fuel refs Hgo). cbn [bind].
  now apply checkDeferred_inert.
Qed.

(** C1. isClosed walks the referrers in their order: a value without
    referrers is not closed; referrers classified as anything but Closed or
    Handled (Returned, Unhandled, UnvaluedCall, UnvaluedDefer among them)
    are stepped over; the first referrer classified as Closed or Handled
    makes the answer true, whatever follows it; a list exhausted without
    such a referrer gives false, and Run then reports the value. *)
Theorem isClosed_first_match (fuel : nat) (pre : list iid) :
  Forall (goesOn fuel) pre ->
  isClosed' (S fuel) [] = Done false /\
  isClosed' (S fuel) pre = Done false /\
  (forall rest, isClosed' (S fuel) (pre ++ rest) = isClosed' (S fuel) rest) /\
  (forall r rest a,
      getAction' fuel (instrAt pssa r) = Done a ->
      a = actionClosed \/ a = actionHandled ->
      isClosed' (S fuel) (pre ++ r :: rest) = Done true) /\
  (forall r rest a,
      getAction' fuel (instrAt pssa r) = Done a ->
      In a [actionReturned; actionUnhandled;
            actionUnvaluedCall; actionUnvaluedDefer] ->
      isClosed' (S fuel) (pre ++ r :: rest) = isClosed' (S fuel) rest) /\
  (forall tv d,
      Referrers (value tv) = Some [] ->
      checkTarget' (S fuel) tv d
      = Done (Reportf d (Pos (instr tv)) msgNotClosed)).
Proof.
  intros Hpre. split; [reflexivity |].
  split; [now apply isClosed_exhausted |].
  split; [intros rest; now apply isClosed_skip |].
  split; [| split].
  - intros r rest a Ha Hc. rewrite isClosed_skip by assumption.
    rewrite isClosed_cons, Ha. destruct Hc; subst a; reflexivity.
  - intros r rest a Ha Hin. rewrite isClosed_skip by assumption.
    rewrite isClosed_cons, Ha. cbn [bind].
    destruct Hin as [<- | [<- | [<- | [<- | []]]]]; reflexivity.
  - intros tv d Hrefs.
    apply (checkTarget_unclosed fuel tv [] d Hrefs); constructor.
Qed.

Lemma getAction_merge_or_box (fuel : nat) (instr : Instruction) :
  isMergeOrBox instr = true -> getAction' fuel instr = Done actionPassed.
Proof.
  unfold isMergeOrBox, getAction, classify.
  destruct (op instr); try discriminate; reflexivity.
Qed.

(** C2. A control-flow merge or an interface boxing is classified as
    Passed, with no fuel and whatever its own consumers are: the walk never
    visits them. A value whose referrers are merges and boxings (next to
    referrers that do not close and that the deferred-usage walk steps
    over) is not closed for isClosed, and Run reports it as not closed. *)
Theorem passed_is_inert (fuel : nat) (tv : targetValue) (refs : list iid)
        (d : list Diagnostic) :
  Referrers (value tv) = Some refs ->
  Forall (fun r => isMergeOrBox (instrAt pssa r) = true \/
                   (goesOn fuel r /\ deferInert (instrAt pssa r) = true))
         refs ->
  (forall pos consumers,
      getAction' 0 (mkInstr pos (Phi consumers)) = Done actionPassed /\
      getAction' 0 (mkInstr pos (MakeInterface consumers)) = Done actionPassed) /\
  (forall r, In r refs -> isMergeOrBox (instrAt pssa r) = true ->
             getAction' fuel (instrAt pssa r) = Done actionPassed) /\
  isClosed' (S fuel) refs = Done false /\
  checkTarget' (S fuel) tv d = Done (Reportf d (Pos (instr tv)) msgNotClosed).
Proof.
  intros Hrefs Hall.
  assert (Hgo : Forall (goesOn fuel) refs).
  { eapply Forall_impl; [| exact Hall]. intros r [Hm | [Hg _]]; [| exact Hg].
    exists actionPassed. split; [now apply getAction_merge_or_box |].
    split; discriminate. }
  assert (Hinert : Forall (fun r => deferInert (instrAt pssa r) = true) refs).
  { eapply Forall_impl; [| exact Hall]. intros r [Hm | [_ Hi]]; [| exact Hi].
    unfold isMergeOrBox in Hm. unfold deferInert.
    destruct (op (instrAt pssa r)); try discriminate; reflexivity. }
  split; [intros pos consumers; split; reflexivity |].
  split; [intros r _ Hm; now apply getAction_merge_or_box |].
  split; [now apply isClosed_exhausted |].
  now apply checkTarget_unclosed with (refs := refs).
Qed.

Lemma matchesTarget_true (t : gotype) (targetType : any) (t' : gotype) :
  In targetType targetTypes -> targetShape targetType = Some t' ->
  Identical t t' = true -> matchesTarget targetTypes t = true.
Proof.
  intros Hin Hshape Hid. unfold matchesTarget. apply existsb_exists.
  exists targetType. split; [exact Hin |]. now rewrite Hshape.
Qed.

Lemma getAction_returned (fuel : nat) (instr : Instruction) :
  returnsTarget targetTypes instr \/ storesInField instr ->
  getAction' fuel instr = Done actionReturned.
Proof.
  unfold returnsTarget, storesInField, getAction, classify.
  intros [H | H]; destruct (op instr); try contradiction.
  - destruct H as (result & targetType & t & Hin & Htt & Hshape & Hid).
    replace (existsb _ results) with true; [reflexivity |].
    symmetry. apply existsb_exists. exists result. split; [exact Hin |].
    now apply matchesTarget_true with (targetType := targetType) (t' := t).
  - now rewrite H.
Qed.

(** C7. A return that carries a result of a target type, and a store into
    the address of a struct field, are classified as Returned, with no fuel
    spent on following the value; isClosed steps over them; a value whose
    referrers are such returns is reported as not closed. *)
Theorem returned_not_followed (fuel : nat) :
  (forall instr,
      returnsTarget targetTypes instr \/ storesInField instr ->
      getAction' 0 instr = Done actionReturned /\
      getAction' fuel instr = Done actionReturned) /\
  (forall r rest,
      returnsTarget targetTypes (instrAt pssa r) \/
      storesInField (instrAt pssa r) ->
      isClosed' (S fuel) (r :: rest) = isClosed' (S fuel) rest) /\
  (forall tv refs d,
      Referrers (value tv) = Some refs ->
      Forall (fun r => returnsTarget targetTypes (instrAt pssa r)) refs ->
      isClosed' (S fuel) refs = Done false /\
      checkTarget' (S fuel) tv d
      = Done (Reportf d (Pos (instr tv)) msgNotClosed)).
Proof.
  split; [| split].
  - intros instr H. split; now apply getAction_returned.
  - intros r rest H. rewrite isClosed_cons.
    now rewrite (getAction_returned fuel _ H).
  - intros tv refs d Hrefs Hall.
    assert (Hgo : Forall (goesOn fuel) refs).
    { eapply Forall_impl; [| exact Hall]. intros r Hr.
      exists actionReturned. split; [apply getAction_returned; now left |].
      split; discriminate. }
    split; [now apply isClosed_exhausted |].
    apply checkTarget_unclosed with (refs := refs); try assumption.
    eapply Forall_impl; [| exact Hall]. intros r Hr.
    unfold returnsTarget in Hr. unfold deferInert.
    destruct (op (instrAt pssa r)); try contradiction; reflexivity.
Qed.

End Reachability.

(** ** The deferred-usage walk *)

Section DeferredUsage.

Variable isTargetType : gotype -> list any -> bool.
Variable pssa : SSA.
Variable targetTypes : list any.

Local Abbreviation isClosed' := (isClosed isTargetType pssa targetTypes).
Local Abbreviation getAction' := (getAction isTargetType pssa targetTypes).
Local Abbreviation checkTarget' := (checkTarget isTargetType pssa targetTypes).
Local Abbreviation checkDeferred' := (checkDeferred pssa targetTypes).
Local Abbreviation goesOn := (goesOn isTargetType pssa targetTypes).
Local Abbreviation inert := (fun r => deferInert (instrAt pssa r) = true).

Section OneWalk.

Variable rec : list iid -> bool -> list Diagnostic -> outcome (list Diagnostic).

Local Abbreviation walk := (walkDeferred pssa targetTypes rec).

(** What follows a prefix only matters through the walk from there. *)
Lemma walkDeferred_prefix (pre l1 l2 : list iid) (b : bool) :
  (forall d, walk l1 b d = walk l2 b d) ->
  forall d, walk (pre ++ l1) b d = walk (pre ++ l2) b d.
Proof.
  intros Heq. induction pre as [| i pre IH]; intros d; [apply Heq |].
  rewrite <- !app_comm_cons. cbn [walkDeferred].
  destruct (op (instrAt pssa i)); try apply IH.
  - destruct (valueIsClose call); [reflexivity |].
    destruct (methodIsClose call); [reflexivity | apply IH].
  - destruct (valueIsClose call); [reflexivity | apply IH].
  - destruct (Referrers addr) as [[| a l] |]; cbn [bind deref];
      try reflexivity.
    destruct (deferredClosures pssa rec (a :: l) d); cbn [bind];
      try reflexivity; apply IH.
  - destruct (deferredUnOp targetTypes rec ty referrers b d); cbn [bind];
      try reflexivity; apply IH.
  - destruct (rec referrers b d); cbn [bind]; try reflexivity; apply IH.
Qed.

Lemma walkDeferred_deferred (c : iid) (rest : list iid) (b : bool)
      (d : list Diagnostic) :
  deferredCleanup (instrAt pssa c) = true -> walk (c :: rest) b d = Done d.
Proof.
  unfold deferredCleanup. cbn [walkDeferred].
  destruct (op (instrAt pssa c)); try discriminate.
  destruct (valueIsClose call); [reflexivity |].
  cbn [orb]. now intros ->.
Qed.

Lemma walkDeferred_bare (c : iid) (rest : list iid) (b : bool)
      (d : list Diagnostic) :
  bareCleanup (instrAt pssa c) = true ->
  walk (c :: rest) b d
  = Done (if b then d else Reportf d (Pos (instrAt pssa c)) msgUseDefer).
Proof.
  unfold bareCleanup. cbn [walkDeferred].
  destruct (op (instrAt pssa c)); try discriminate. now intros ->.
Qed.

Lemma walkDeferred_dead (s : iid) (rest : list iid) (b : bool)
      (d : list Diagnostic) :
  deadStore (instrAt pssa s) -> walk (s :: rest) b d = Done d.
Proof.
  unfold deadStore. cbn [walkDeferred].
  destruct (op (instrAt pssa s)); try contradiction. now intros ->.
Qed.

End OneWalk.

(** Direct calls, whose value is the called function: the walk of
    checkDeferred ends at the first cleanup call of the list it walks, and
    nothing after that call is looked at. After referrers the walk steps
    over, a deferred cleanup call ends it without a diagnostic, and a bare cleanup call ends it with exactly one diagnostic
    "should use defer" at that call (none inside a deferred closure). A
    value closed by such a bare call gets that one diagnostic from Run and
    no "not closed". *)
Theorem checkDeferred_first_cleanup (fuel : nat) :
  (forall pre c rest b d,
      bareCleanup (instrAt pssa c) = true \/
      deferredCleanup (instrAt pssa c) = true ->
      checkDeferred' (S fuel) (pre ++ c :: rest) b d
      = checkDeferred' (S fuel) (pre ++ [c]) b d) /\
  (forall pre c rest b d,
      Forall inert pre ->
      deferredCleanup (instrAt pssa c) = true ->
      checkDeferred' (S fuel) (pre ++ c :: rest) b d = Done d) /\
  (forall pre c rest d,
      Forall inert pre ->
      bareCleanup (instrAt pssa c) = true ->
      checkDeferred' (S fuel) (pre ++ c :: rest) false d
      = Done (d ++ [mkDiag (Pos (instrAt pssa c)) msgUseDefer]) /\
      checkDeferred' (S fuel) (pre ++ c :: rest) true d = Done d) /\
  (forall tv pre c rest d,
      Referrers (value tv) = Some (pre ++ c :: rest) ->
      Forall (goesOn fuel) pre ->
      Forall inert pre ->
      bareCleanup (instrAt pssa c) = true ->
      getAction' fuel (instrAt pssa c) = Done actionClosed ->
      checkTarget' (S fuel) tv d
      = Done (d ++ [mkDiag (Pos (instrAt pssa c)) msgUseDefer])).
Proof.
  assert (Hbare : forall pre c rest b d,
             Forall inert pre -> bareCleanup (instrAt pssa c) = true ->
             checkDeferred' (S fuel) (pre ++ c :: rest) b d
             = Done (if b then d
                     else Reportf d (Pos (instrAt pssa c)) msgUseDefer)).
  { intros pre c rest b d Hpre Hc. cbn [checkDeferred].
    rewrite walkDeferred_inert by assumption. now apply walkDeferred_bare. }
  split; [| split; [| split]].
  - intros pre c rest b d Hc. cbn [checkDeferred].
    apply walkDeferred_prefix. intros d'.
    destruct Hc as [Hc | Hc].
    + now rewrite !walkDeferred_bare.
    + now rewrite !walkDeferred_deferred.
  - intros pre c rest b d Hpre Hc. cbn [checkDeferred].
    rewrite walkDeferred_inert by assumption.
    now apply walkDeferred_deferred.
  - intros pre c rest d Hpre Hc. split; now apply Hbare.
  - intros tv pre c rest d Hrefs Hgo Hpre Hc Hclosed.
    unfold checkTarget. rewrite Hrefs. cbn [bind deref].
    rewrite (isClosed_skip _ _ _ fuel pre (c :: rest) Hgo).
    rewrite isClosed_cons, Hclosed. cbn [bind closes].
    now apply Hbare.
Qed.

(** C10. In checkDeferred a store whose address has no referrers ends the
    walk of the whole list: the result is that of the walk of the referrers
    before the store, and no referrer after it is looked at. A bare cleanup
    call right after a dead store goes unreported, although the same call
    without the store before it is reported. *)
Theorem dead_store_ends_walk (fuel : nat) (s : iid) :
  deadStore (instrAt pssa s) ->
  (forall pre rest b d,
      checkDeferred' (S fuel) (pre ++ s :: rest) b d
      = checkDeferred' (S fuel) pre b d) /\
  (forall rest b d, checkDeferred' (S fuel) (s :: rest) b d = Done d) /\
  (forall c rest d,
      bareCleanup (instrAt pssa c) = true ->
      checkDeferred' (S fuel) (s :: c :: rest) false d = Done d /\
      checkDeferred' (S fuel) (c :: rest) false d
      = Done (d ++ [mkDiag (Pos (instrAt pssa c)) msgUseDefer])).
Proof.
  intros Hs. split; [| split].
  - intros pre rest b d. cbn [checkDeferred].
    rewrite <- (app_nil_r pre) at 2.
    apply walkDeferred_prefix. intros d'. now apply walkDeferred_dead.
  - intros rest b d. now apply walkDeferred_dead.
  - intros c rest d Hc. split.
    + now apply walkDeferred_dead.
    + cbn [checkDeferred]. now rewrite walkDeferred_bare.
Qed.

End DeferredUsage.

(** ** The driver *)

Section Driver.

Variable isTargetType : gotype -> list any -> bool.
Variable getTargetTypes : SSA -> list string -> list any.
Variable getClosableValues :
  SSA -> BasicBlock -> nat -> list any -> list targetValue.

Local Abbreviation Run' := (Run isTargetType getTargetTypes getClosableValues).
Local Abbreviation scanFuncs' := (scanFuncs isTargetType getClosableValues).

(** C3. When no target type is resolved, Run returns at once and reports
    nothing: the pass is left as it was, with no fuel at all, whatever the
    functions, blocks and instructions of the program are. *)
Theorem Run_no_target_types (fuel : nat) (pass : Pass) (pssa : SSA) :
  ResultOf pass = Some pssa ->
  getTargetTypes pssa sqlPackages = [] ->
  Run' fuel pass = Done pass /\ Run' 0 pass = Done pass.
Proof.
  intros Hssa Hnone. unfold Run. now rewrite Hssa, Hnone.
Qed.

Lemma Run_mono (n m : nat) (pass : Pass) :
  n <= m -> approx (Run' n pass) (Run' m pass).
Proof.
  intros Hle. unfold Run.
  destruct (ResultOf pass) as [pssa |]; [| constructor].
  destruct (getTargetTypes pssa sqlPackages); [constructor |].
  apply approx_bind; [now apply scanFuncs_mono | intros; constructor].
Qed.

(** What Run does to a pass: the program is kept, diagnostics are added. *)
Lemma Run_emits (fuel : nat) (pass pass' : Pass) :
  Run' fuel pass = Done pass' ->
  ResultOf pass' = ResultOf pass /\
  exists emitted,
    Diagnostics pass' = Diagnostics pass ++ emitted /\
    forall before,
      Run' fuel (mkPass (ResultOf pass) before)
      = Done (mkPass (ResultOf pass) (before ++ emitted)).
Proof.
  unfold Run. cbn [ResultOf Diagnostics].
  destruct (ResultOf pass) as [pssa |] eqn:Hssa.
  - destruct (getTargetTypes pssa sqlPackages) as [| tt tts] eqn:Htts.
    + intros [= <-]. split; [exact Hssa |]. exists [].
      split; [now rewrite app_nil_r |]. intros before.
      now rewrite app_nil_r.
    + rewrite scanFuncs_frame.
      destruct (scanFuncs' pssa (tt :: tts) fuel (SrcFuncs pssa) [])
        as [emitted | |] eqn:Hscan; cbn [prepend bind]; try discriminate.
      intros [= <-]. cbn [ResultOf Diagnostics].
      split; [reflexivity |]. exists emitted.
      split; [reflexivity |]. intros before.
      rewrite scanFuncs_frame, Hscan. reflexivity.
  - intros [= <-]. split; [exact Hssa |]. exists [].
    split; [now rewrite app_nil_r |]. intros before. now rewrite app_nil_r.
Qed.

(** On the model: fuel and the diagnostics reported before do not change
    what a run adds. A run that returns leaves the program of the pass as
    it was and only adds diagnostics; the result
    does not depend on the fuel, once there is enough of it; a second run,
    on the pass the first one left, adds the same diagnostics in the same
    order; and the classifier gives one answer for an instruction, whatever
    fuel suffices. *)
Theorem Run_deterministic (fuel : nat) (pass pass' : Pass) :
  Run' fuel pass = Done pass' ->
  ResultOf pass' = ResultOf pass /\
  (forall fuel2 pass2, Run' fuel2 pass = Done pass2 -> pass2 = pass') /\
  (exists emitted,
      Diagnostics pass' = Diagnostics pass ++ emitted /\
      forall fuel2, fuel <= fuel2 ->
        Run' fuel2 pass'
        = Done (mkPass (ResultOf pass') (Diagnostics pass' ++ emitted))) /\
  (forall pssa targetTypes instr n m a1 a2,
      getAction isTargetType pssa targetTypes n instr = Done a1 ->
      getAction isTargetType pssa targetTypes m instr = Done a2 ->
      a1 = a2).
Proof.
  intros Hrun.
  destruct (Run_emits fuel pass pass' Hrun) as (Hsame & emitted & Hdiags & Hagain).
  split; [exact Hsame |]. split; [| split].
  - intros fuel2 pass2 Hrun2.
    pose proof (Run_mono fuel (Nat.max fuel fuel2) pass
                         (Nat.le_max_l _ _)) as H1.
    pose proof (Run_mono fuel2 (Nat.max fuel fuel2) pass
                         (Nat.le_max_r _ _)) as H2.
    rewrite Hrun in H1. rewrite Hrun2 in H2.
    apply approx_done in H1. apply approx_done in H2. congruence.
  - exists emitted. split; [exact Hdiags |]. intros fuel2 Hle.
    pose proof (Run_mono fuel fuel2 pass' Hle) as Hm.
    assert (Hpass' : pass' = mkPass (ResultOf pass) (Diagnostics pass')).
    { destruct pass' as [s ds]. cbn in *. now rewrite Hsame. }
    rewrite Hpass' in Hm at 1. rewrite Hagain in Hm.
    apply approx_done in Hm. rewrite Hm. now rewrite Hsame.
  - intros pssa targetTypes instr n m a1 a2 H1 H2.
    pose proof (getAction_mono isTargetType pssa targetTypes n (Nat.max n m)
                               instr (Nat.le_max_l _ _)) as M1.
    pose proof (getAction_mono isTargetType pssa targetTypes m (Nat.max n m)
                               instr (Nat.le_max_r _ _)) as M2.
    rewrite H1 in M1. rewrite H2 in M2.
    apply approx_done in M1. apply approx_done in M2. congruence.
Qed.

End Driver.

(** ** Calls and deferred calls *)

Section CallPolicy.

Variable isTargetType : gotype -> list any -> bool.
Variable pssa : SSA.
Variable targetTypes : list any.

Local Abbreviation isClosed' := (isClosed isTargetType pssa targetTypes).
Local Abbreviation getAction' := (getAction isTargetType pssa targetTypes).
Local Abbreviation calleeIsTarget' :=
  (calleeIsTarget isTargetType pssa targetTypes).

Lemma eqClose_true (s : string) : eqClose s = true <-> s = closeMethod.
Proof. apply String.eqb_eq. Qed.

Lemma anyBlockClosed_true (rec : list iid -> outcome bool)
      (blocks : list BasicBlock) :
  anyBlockClosed rec blocks = Done true <-> someBlockCloses rec blocks.
Proof.
  induction blocks as [| b bs IH]; cbn [anyBlockClosed].
  - split; [discriminate |].
    intros (before & b & after & Heq & _). now destruct before.
  - split.
    + destruct (rec (Instrs b)) as [[|] | |] eqn:Hb; cbn [bind];
        try discriminate.
      * intros _. exists [], b, bs. repeat split; [constructor | exact Hb].
      * intros H. apply IH in H as (before & b' & after & -> & Hpre & Hb').
        exists (b :: before), b', after.
        repeat split; [constructor; assumption | exact Hb'].
    + intros (before & b' & after & Heq & Hpre & Hb').
      destruct before as [| x before]; cbn in Heq; injection Heq as <- ->.
      * now rewrite Hb'.
      * inversion Hpre as [| ? ? Hx Hrest]; subst. rewrite Hx. cbn [bind].
        apply IH. now exists before, b', after.
Qed.

Lemma anyBlockClosed_total (rec : list iid -> outcome bool)
      (blocks : list BasicBlock) :
  Forall (fun b => exists c, rec (Instrs b) = Done c) blocks ->
  exists c, anyBlockClosed rec blocks = Done c.
Proof.
  induction 1 as [| b bs [c Hc] _ [c' IH]]; cbn [anyBlockClosed].
  - now exists false.
  - rewrite Hc. cbn [bind]. destruct c; [now exists true | now exists c'].
Qed.

Lemma getAction_call_range (fuel : nat) (instr : Instruction)
      (call : CallCommon) (res : Value) (a : action) :
  op instr = Call call res ->
  getAction' fuel instr = Done a ->
  a = actionClosed \/ a = actionUnhandled.
Proof.
  intros Hop. unfold getAction, classify. rewrite Hop.
  destruct (CallValue call) as [v |]; [| discriminate]. cbv zeta.
  destruct (calleeIsTarget' call v); cbn [andb negb].
  - destruct (eqClose (Name v)); intros [= <-]; auto.
  - destruct (StaticCallee call) as [f |]; [| intros [= <-]; auto].
    destruct (anyBlockClosed (isClosed' fuel) (Blocks (funcAt pssa f)))
      as [[|] | |]; cbn [bind]; intros [= <-]; auto.
Qed.

(** C5, as the code has it. A call that invokes no method (its value is
    what is called) is classified as Closed exactly when its callee is
    target-typed (by the receiver of the static callee, or by the type of
    the called value when there is no static callee) and the called value
    is named Close, or its callee is not target-typed, is statically
    resolved, and the scan of its blocks finds one that closes; otherwise
    it is Unhandled. A deferred call (with a value) is classified as Closed
    exactly when its value or the method it invokes is named Close,
    whatever the type of the receiver, or when it invokes no method, its
    value is a function and the scan of the blocks of that function finds
    one that closes; otherwise it is UnvaluedDefer. The classification
    returns whenever the scans of the blocks do. Nothing is stated about a
    call that invokes a method of an interface. *)
Theorem closed_policy (fuel : nat) (instr : Instruction) (call : CallCommon)
        (v : Value) :
  CallValue call = Some v ->
  ((exists res, op instr = Call call res) ->
   Method call = None ->
   (getAction' fuel instr = Done actionClosed <->
    (calleeIsTarget' call v = true /\ Name v = closeMethod) \/
    (calleeIsTarget' call v = false /\
     exists f, StaticCallee call = Some f /\
               someBlockCloses (isClosed' fuel) (Blocks (funcAt pssa f)))) /\
   (forall a, getAction' fuel instr = Done a ->
              a = actionClosed \/ a = actionUnhandled) /\
   ((forall f, StaticCallee call = Some f ->
               Forall (fun b => exists c, isClosed' fuel (Instrs b) = Done c)
                      (Blocks (funcAt pssa f))) ->
    exists a, getAction' fuel instr = Done a)) /\
  (op instr = Defer call ->
   (getAction' fuel instr = Done actionClosed <->
    Name v = closeMethod \/ Method call = Some closeMethod \/
    (Method call = None /\
     exists f, kind v = KFunction f /\
               someBlockCloses (isClosed' fuel) (Blocks (funcAt pssa f)))) /\
   (forall a, getAction' fuel instr = Done a ->
              a = actionClosed \/ a = actionUnvaluedDefer) /\
   ((forall f, kind v = KFunction f ->
               Forall (fun b => exists c, isClosed' fuel (Instrs b) = Done c)
                      (Blocks (funcAt pssa f))) ->
    exists a, getAction' fuel instr = Done a)).
Proof.
  intros Hv. split.
  - intros [res Hop] _. unfold getAction, classify. rewrite Hop, Hv. cbv zeta.
    destruct (calleeIsTarget' call v) eqn:Htarget; cbn [andb negb].
    + destruct (eqClose (Name v)) eqn:Hname.
      * apply eqClose_true in Hname.
        split; [| split]; [| intros a [= <-]; now left | now eexists].
        split; [intros _; now left | reflexivity].
      * split; [| split]; [| intros a [= <-]; now right | now eexists].
        split; [discriminate |].
        intros [[_ Hn] | [Hf _]]; [| discriminate].
        apply eqClose_true in Hn. congruence.
    + destruct (StaticCallee call) as [f |] eqn:Hcallee.
      * pose proof (anyBlockClosed_true (isClosed' fuel)
                                        (Blocks (funcAt pssa f))) as Hiff.
        split; [| split].
        -- split.
           ++ intros H. right. split; [reflexivity |]. exists f.
              split; [reflexivity |]. apply Hiff.
              destruct (anyBlockClosed (isClosed' fuel)
                                       (Blocks (funcAt pssa f)))
                as [[|] | |]; cbn [bind] in H; try discriminate; reflexivity.
           ++ intros [[Hf _] | [_ (f' & [= <-] & Hsome)]]; [discriminate |].
              apply Hiff in Hsome. now rewrite Hsome.
        -- intros a.
           destruct (anyBlockClosed (isClosed' fuel) (Blocks (funcAt pssa f)))
             as [[|] | |]; cbn [bind]; intros [= <-]; auto.
        -- intros Hblocks.
           destruct (anyBlockClosed_total _ _ (Hblocks f eq_refl)) as [c Hc].
           rewrite Hc. cbn [bind]. now eexists.
      * split; [| split]; [| intros a [= <-]; now right | now eexists].
        split; [discriminate |].
        intros [[Hf _] | [_ (f & Hf & _)]]; discriminate.
  - intros Hop. unfold getAction, classify. rewrite Hop, Hv.
    destruct (eqClose (Name v)) eqn:Hname.
    { apply eqClose_true in Hname.
      split; [| split]; [| intros a [= <-]; now left | now eexists].
      split; [intros _; now left | reflexivity]. }
    assert (Hn : Name v <> closeMethod).
    { intros Hn. apply eqClose_true in Hn. congruence. }
    destruct (Method call) as [m |] eqn:Hm.
    { destruct (eqClose m) eqn:Hmname.
      - apply eqClose_true in Hmname. subst m.
        split; [| split]; [| intros a [= <-]; now left | now eexists].
        split; [intros _; right; now left | reflexivity].
      - split; [| split]; [| intros a [= <-]; now right | now eexists].
        split; [discriminate |].
        intros [H | [[= H] | [H _]]]; [contradiction | | discriminate].
        subst m. unfold eqClose in Hmname.
        now rewrite String.eqb_refl in Hmname. }
    destruct (kind v) as [f | f | |] eqn:Hkind;
      try (split; [| split]; [| intros a [= <-]; now right | now eexists];
           split; [discriminate |];
           intros [H | [H | [_ (f' & H & _)]]];
           [contradiction | discriminate | discriminate]).
    pose proof (anyBlockClosed_true (isClosed' fuel)
                                    (Blocks (funcAt pssa f))) as Hiff.
    split; [| split].
    + split.
      * intros H. right. right. split; [reflexivity |]. exists f.
        split; [reflexivity |]. apply Hiff.
        destruct (anyBlockClosed (isClosed' fuel) (Blocks (funcAt pssa f)))
          as [[|] | |]; cbn [bind] in H; try discriminate; reflexivity.
      * intros [H | [H | [_ (f' & [= <-] & Hsome)]]];
          [contradiction | discriminate |].
        apply Hiff in Hsome. now rewrite Hsome.
    + intros a.
      destruct (anyBlockClosed (isClosed' fuel) (Blocks (funcAt pssa f)))
        as [[|] | |]; cbn [bind]; intros [= <-]; auto.
    + intros Hblocks.
      destruct (anyBlockClosed_total _ _ (Hblocks f eq_refl)) as [c Hc].
      rewrite Hc. cbn [bind]. now eexists.
Qed.

(** C6, as the code has it. A call (with a value) whose target is not
    statically resolved is classified as Unhandled, or as Closed when the
    type of its value is a target type and its name is Close; no call with
    a value is classified as UnvaluedCall. A deferred call (with a value)
    whose target is not statically resolved is classified as UnvaluedDefer,
    or as Closed when its value or the method it invokes is named Close.
    These classifications need no fuel: nothing is followed and nothing
    aborts. *)
Theorem unresolved_policy (fuel : nat) (instr : Instruction)
        (call : CallCommon) (v : Value) :
  CallValue call = Some v ->
  ((exists res, op instr = Call call res) ->
   (StaticCallee call = None ->
    getAction' fuel instr
    = Done (if isTargetType (Type_ v) targetTypes && eqClose (Name v)
            then actionClosed else actionUnhandled) /\
    getAction' 0 instr = getAction' fuel instr) /\
   (forall a, getAction' fuel instr = Done a -> a <> actionUnvaluedCall)) /\
  (op instr = Defer call ->
   StaticCallee call = None ->
   getAction' fuel instr
   = Done (if eqClose (Name v) || methodIsClose call
           then actionClosed else actionUnvaluedDefer) /\
   getAction' 0 instr = getAction' fuel instr).
Proof.
  intros Hv. split.
  - intros [res Hop]. split.
    + intros Hcallee. unfold getAction, classify, calleeIsTarget.
      rewrite Hop, Hv, Hcallee. cbv zeta.
      destruct (isTargetType (Type_ v) targetTypes); cbn [andb negb];
        [destruct (eqClose (Name v)) |]; split; reflexivity.
    + intros a Ha.
      destruct (getAction_call_range fuel instr call res a Hop Ha);
        subst a; discriminate.
  - intros Hop Hcallee. unfold getAction, classify, methodIsClose.
    rewrite Hop, Hv. unfold StaticCallee in Hcallee. rewrite Hv in Hcallee.
    destruct (eqClose (Name v)); [split; reflexivity |]. cbn [orb].
    destruct (Method call) as [m |]; [destruct (eqClose m); split; reflexivity |].
    destruct (kind v); try discriminate; split; reflexivity.
Qed.

End CallPolicy.

(** ** Termination of the walk *)

Section Termination.

Variable isTargetType : gotype -> list any -> bool.
Variable pssa : SSA.
Variable targetTypes : list any.

Local Abbreviation isClosed' := (isClosed isTargetType pssa targetTypes).
Local Abbreviation classify' := (classify isTargetType pssa targetTypes).

Lemma bind_finishes {A B : Type} (m : outcome A) (k : A -> outcome B) :
  m <> OutOfFuel -> (forall a, k a <> OutOfFuel) -> bind m k <> OutOfFuel.
Proof.
  intros Hm Hk. destruct m; cbn [bind]; [apply Hk | discriminate | now elim Hm].
Qed.

Section OneStepFinishes.

Variable rec : list iid -> outcome bool.

Lemma anyBlockClosed_finishes (blocks : list BasicBlock) :
  (forall l, In l (map Instrs blocks) -> rec l <> OutOfFuel) ->
  anyBlockClosed rec blocks <> OutOfFuel.
Proof.
  induction blocks as [| b bs IH]; intros H; cbn [anyBlockClosed].
  - discriminate.
  - apply bind_finishes; [apply H; now left |].
    intros [|]; [discriminate |]. apply IH. intros l Hl. apply H. now right.
Qed.

Lemma closureClosed_finishes (aRefs : list iid) :
  (forall l, In l (closureBodies pssa aRefs) -> rec l <> OutOfFuel) ->
  closureClosed pssa rec aRefs <> OutOfFuel.
Proof.
  induction aRefs as [| aRef rest IH]; intros H; cbn [closureClosed].
  - discriminate.
  - assert (Hrest : closureClosed pssa rec rest <> OutOfFuel).
    { apply IH. intros l Hl. apply H. unfold closureBodies. cbn [flat_map].
      apply in_or_app. now right. }
    assert (Hhead : forall l,
               In l (match op (instrAt pssa aRef) with
                     | MakeClosure fn =>
                         match kind fn with
                         | KFunction f => map Instrs (Blocks (funcAt pssa f))
                         | _ => []
                         end
                     | _ => []
                     end) -> rec l <> OutOfFuel).
    { intros l Hl. apply H. unfold closureBodies. cbn [flat_map].
      apply in_or_app. now left. }
    destruct (op (instrAt pssa aRef)); try exact Hrest.
    destruct (kind fn); try exact Hrest.
    apply bind_finishes; [now apply anyBlockClosed_finishes |].
    intros [|]; [discriminate | exact Hrest].
Qed.

Lemma unopHandled_finishes (t : gotype) (referrers : list iid)
      (tts : list any) :
  rec referrers <> OutOfFuel ->
  unopHandled rec t referrers tts <> OutOfFuel.
Proof.
  intros H. induction tts as [| tt rest IH]; cbn [unopHandled].
  - discriminate.
  - destruct (targetShape tt); try exact IH.
    destruct (Identical t g); try exact IH.
    apply bind_finishes; [exact H |]. intros [|]; [discriminate | exact IH].
Qed.

Lemma classify_finishes (instr : Instruction) :
  (forall l, In l (followed pssa instr) -> rec l <> OutOfFuel) ->
  classify' rec instr <> OutOfFuel.
Proof.
  unfold followed, classify. intros H.
  destruct (op instr); try discriminate.
  - destruct (CallValue call) as [v |]; [| discriminate].
    destruct (eqClose (Name v)); [discriminate |].
    destruct (Method call) as [m |]; [destruct (eqClose m); discriminate |].
    destruct (kind v); try discriminate.
    apply bind_finishes; [now apply anyBlockClosed_finishes | discriminate].
  - destruct (CallValue call) as [v |]; [| discriminate]. cbv zeta.
    destruct (calleeIsTarget isTargetType pssa targetTypes call v);
      cbn [andb negb]; [destruct (eqClose (Name v)); discriminate |].
    destruct (StaticCallee call); [| discriminate].
    apply bind_finishes; [now apply anyBlockClosed_finishes | discriminate].
  - destruct (kind addr); try discriminate;
      (destruct (Referrers addr) as [[| a l] |]; cbn [bind deref];
       try discriminate;
       apply bind_finishes; [now apply closureClosed_finishes | discriminate]).
  - apply bind_finishes; [| discriminate].
    apply unopHandled_finishes. apply H. now left.
  - apply bind_finishes; [| discriminate]. apply H. now left.
  - destruct (existsb _ results); discriminate.
Qed.

Lemma walkRefs_finishes (refs : list iid) :
  (forall r, In r refs -> classify' rec (instrAt pssa r) <> OutOfFuel) ->
  walkRefs isTargetType pssa targetTypes rec refs <> OutOfFuel.
Proof.
  induction refs as [| r rest IH]; intros H; cbn [walkRefs].
  - discriminate.
  - apply bind_finishes; [apply H; now left |].
    intros a. destruct (closes a); [discriminate |].
    apply IH. intros r' Hr'. apply H. now right.
Qed.

End OneStepFinishes.

Lemma isClosed_finishes (rank : iid -> nat) :
  acyclic pssa rank ->
  forall fuel refs,
    (forall r, In r refs -> rank r < fuel) ->
    isClosed' (S fuel) refs <> OutOfFuel.
Proof.
  intros Hacyclic. induction fuel as [| n IH]; intros refs Hrank;
    cbn [isClosed]; apply walkRefs_finishes; intros r Hr.
  - specialize (Hrank r Hr). lia.
  - apply classify_finishes. intros l Hl. apply IH. intros j Hj.
    specialize (Hacyclic r l j Hl Hj). specialize (Hrank r Hr). lia.
Qed.

Lemma bind_no_panic {A B : Type} (m : outcome A) (k : A -> outcome B) :
  m <> Panics -> (forall a, k a <> Panics) -> bind m k <> Panics.
Proof.
  intros Hm Hk. destruct m; cbn [bind]; [apply Hk | now elim Hm | discriminate].
Qed.

Section OneStepNoPanic.

Variable rec : list iid -> outcome bool.
Hypothesis Hrec : forall l, rec l <> Panics.

Lemma anyBlockClosed_no_panic (blocks : list BasicBlock) :
  anyBlockClosed rec blocks <> Panics.
Proof.
  induction blocks as [| b bs IH]; cbn [anyBlockClosed]; [discriminate |].
  apply bind_no_panic; [apply Hrec |]. intros [|]; [discriminate | exact IH].
Qed.

Lemma closureClosed_no_panic (aRefs : list iid) :
  closureClosed pssa rec aRefs <> Panics.
Proof.
  induction aRefs as [| aRef rest IH]; cbn [closureClosed]; [discriminate |].
  destruct (op (instrAt pssa aRef)); try exact IH.
  destruct (kind fn); try exact IH.
  apply bind_no_panic; [apply anyBlockClosed_no_panic |].
  intros [|]; [discriminate | exact IH].
Qed.

Lemma unopHandled_no_panic (t : gotype) (referrers : list iid)
      (tts : list any) :
  unopHandled rec t referrers tts <> Panics.
Proof.
  induction tts as [| tt rest IH]; cbn [unopHandled]; [discriminate |].
  destruct (targetShape tt); try exact IH.
  destruct (Identical t g); try exact IH.
  apply bind_no_panic; [apply Hrec |]. intros [|]; [discriminate | exact IH].
Qed.

Lemma walkRefs_no_panic (refs : list iid) :
  noNilDeref pssa ->
  walkRefs isTargetType pssa targetTypes rec refs <> Panics.
Proof.
  intros Hwf. induction refs as [| r rest IH]; cbn [walkRefs]; [discriminate |].
  apply bind_no_panic; [| intros a; destruct (closes a); [discriminate | exact IH]].
  specialize (Hwf r). unfold classify.
  destruct (op (instrAt pssa r)); try discriminate.
  - destruct (CallValue call) as [v |]; [| now elim Hwf].
    destruct (eqClose (Name v)); [discriminate |].
    destruct (Method call) as [m |]; [destruct (eqClose m); discriminate |].
    destruct (kind v); try discriminate.
    apply bind_no_panic; [apply anyBlockClosed_no_panic | discriminate].
  - destruct (CallValue call) as [v |]; [| now elim Hwf]. cbv zeta.
    destruct (calleeIsTarget isTargetType pssa targetTypes call v);
      cbn [andb negb]; [destruct (eqClose (Name v)); discriminate |].
    destruct (StaticCallee call); [| discriminate].
    apply bind_no_panic; [apply anyBlockClosed_no_panic | discriminate].
  - destruct (kind addr) eqn:Hkind; try discriminate;
      (destruct Hwf as [Hwf | Hwf]; [discriminate |];
       destruct (Referrers addr) as [[| a l] |]; cbn [bind deref];
       [discriminate | | now elim Hwf];
       apply bind_no_panic; [apply closureClosed_no_panic | discriminate]).
  - apply bind_no_panic; [apply unopHandled_no_panic | discriminate].
  - apply bind_no_panic; [apply Hrec | discriminate].
  - destruct (existsb _ results); discriminate.
Qed.

End OneStepNoPanic.

Lemma isClosed_no_panic (fuel : nat) :
  noNilDeref pssa -> forall refs, isClosed' fuel refs <> Panics.
Proof.
  intros Hwf. induction fuel as [| n IH]; intros refs; cbn [isClosed].
  - discriminate.
  - now apply walkRefs_no_panic.
Qed.

End Termination.

Lemma approx_finished {A : Type} (r1 r2 : outcome A) :
  approx r1 r2 -> r1 <> OutOfFuel -> r2 = r1.
Proof. intros H Hne. destruct H; [now elim Hne | reflexivity]. Qed.

Lemma recursive_walk_diverges (fuel : nat) :
  isClosed isTargetType_spec Examples.recursive
           (Examples.targets Examples.recursive) fuel [2] = OutOfFuel.
Proof.
  induction fuel as [| n IH]; [reflexivity |].
  cbn [isClosed walkRefs]. unfold classify.
  cbn -[isClosed Examples.targets]. rewrite IH. reflexivity.
Qed.

Lemma recursive_call_diverges (fuel : nat) :
  isClosed isTargetType_spec Examples.recursive
           (Examples.targets Examples.recursive) fuel [1] = OutOfFuel.
Proof.
  destruct fuel as [| n]; [reflexivity |].
  cbn [isClosed walkRefs]. unfold classify.
  cbn -[isClosed Examples.targets]. rewrite recursive_walk_diverges.
  reflexivity.
Qed.

(** C8. The walk of isClosed and getAction keeps no record of what it has
    visited. When the links it can follow (static callees, deferred
    functions, closure bodies, and the def-use links it follows) are
    acyclic, it ends, with a recursion depth bounded by the nesting of the
    input, and more fuel does not change the result; it then returns an
    answer, unless it dereferences nil. On a function that
    calls itself the recursion is unbounded: no amount of fuel lets the
    walk, or Run, return. *)
Theorem walk_terminates_when_acyclic :
  (forall isTargetType pssa targetTypes rank fuel refs,
      acyclic pssa rank ->
      (forall r, In r refs -> rank r < fuel) ->
      isClosed isTargetType pssa targetTypes (S fuel) refs <> OutOfFuel /\
      (forall more,
          S fuel <= more ->
          isClosed isTargetType pssa targetTypes more refs
          = isClosed isTargetType pssa targetTypes (S fuel) refs) /\
      (noNilDeref pssa ->
       exists closed,
         isClosed isTargetType pssa targetTypes (S fuel) refs = Done closed)) /\
  (forall fuel,
      isClosed isTargetType_spec Examples.recursive
               (Examples.targets Examples.recursive) fuel [1] = OutOfFuel /\
      Examples.run fuel Examples.recursive = OutOfFuel).
Proof.
  split.
  - intros isTargetType pssa targetTypes rank fuel refs Hacyclic Hrank.
    pose proof (isClosed_finishes isTargetType pssa targetTypes rank
                                  Hacyclic fuel refs Hrank) as Hfin.
    split; [exact Hfin |]. split.
    + intros more Hle.
      apply approx_finished; [now apply isClosed_mono | exact Hfin].
    + intros Hwf.
      pose proof (isClosed_no_panic isTargetType pssa targetTypes (S fuel)
                                    Hwf refs) as Hnp.
      destruct (isClosed isTargetType pssa targetTypes (S fuel) refs)
        as [closed | |]; [now exists closed | now elim Hnp | now elim Hfin].
  - intros fuel. split; [apply recursive_call_diverges |].
    unfold Examples.run, Run. cbn [ResultOf].
    change (getTargetTypes_spec Examples.recursive sqlPackages)
      with (Examples.targets Examples.recursive).
    assert (Hscan : forall d,
               scanFuncs isTargetType_spec getClosableValues_spec
                         Examples.recursive
                         (Examples.targets Examples.recursive) fuel
                         (SrcFuncs Examples.recursive) d = OutOfFuel).
    { intros d. unfold scanFuncs, scanBlock, checkTarget.
      cbn -[isClosed checkDeferred Examples.targets isTargetType_spec].
      change (isTargetType_spec Examples.ptrRows
                                (Examples.targets Examples.recursive))
        with true.
      cbn -[isClosed checkDeferred Examples.targets].
      now rewrite recursive_call_diverges. }
    assert (Htargets : exists tt rest,
               Examples.targets Examples.recursive = tt :: rest)
      by (do 2 eexists; reflexivity).
    destruct Htargets as (tt & rest & Htargets).
    revert Hscan. rewrite Htargets. intros Hscan. now rewrite Hscan.
Qed.

(** ** How the reachability walk composes *)

Section Composition.

Variable isTargetType : gotype -> list any -> bool.
Variable pssa : SSA.
Variable targetTypes : list any.

Local Abbreviation isClosed' := (isClosed isTargetType pssa targetTypes).
Local Abbreviation getAction' := (getAction isTargetType pssa targetTypes).
Local Abbreviation goesOn' := (goesOn isTargetType pssa targetTypes).

Section OneStepComposition.

Variable rec : list iid -> outcome bool.

Local Abbreviation walk := (walkRefs isTargetType pssa targetTypes rec).

Lemma walkRefs_app (l1 l2 : list iid) :
  walk (l1 ++ l2)
  = (c <- walk l1 ;; if c then Done true else walk l2).
Proof.
  induction l1 as [| r rest IH]; [reflexivity |].
  rewrite <- app_comm_cons. cbn [walkRefs].
  destruct (classify isTargetType pssa targetTypes rec (instrAt pssa r))
    as [a | |]; cbn [bind]; try reflexivity.
  destruct (closes a); [reflexivity | exact IH].
Qed.

Lemma anyBlockClosed_app (r : list iid -> outcome bool)
      (bs1 bs2 : list BasicBlock) :
  anyBlockClosed r (bs1 ++ bs2)
  = (c <- anyBlockClosed r bs1 ;; if c then Done true else anyBlockClosed r bs2).
Proof.
  induction bs1 as [| b bs IH]; [reflexivity |].
  rewrite <- app_comm_cons. cbn [anyBlockClosed].
  destruct (r (Instrs b)) as [[|] | |]; cbn [bind]; try reflexivity.
  exact IH.
Qed.

Lemma anyBlockClosed_flat (blocks : list BasicBlock) :
  anyBlockClosed walk blocks = walk (flat_map Instrs blocks).
Proof.
  induction blocks as [| b bs IH]; [reflexivity |].
  cbn [anyBlockClosed flat_map]. rewrite walkRefs_app.
  destruct (walk (Instrs b)) as [[|] | |]; cbn [bind]; try reflexivity.
  exact IH.
Qed.

Lemma closureClosed_blocks (aRefs : list iid) :
  closureClosed pssa rec aRefs = anyBlockClosed rec (closureBlocks pssa aRefs).
Proof.
  induction aRefs as [| aRef rest IH]; [reflexivity |].
  unfold closureBlocks. cbn [closureClosed flat_map].
  fold (closureBlocks pssa rest).
  destruct (op (instrAt pssa aRef)); try exact IH.
  destruct (kind fn); try exact IH.
  rewrite anyBlockClosed_app.
  destruct (anyBlockClosed rec (Blocks (funcAt pssa f))) as [[|] | |];
    cbn [bind]; try reflexivity.
  exact IH.
Qed.

Lemma unopHandled_collapse (t : gotype) (referrers : list iid)
      (tts : list any) :
  unopHandled rec t referrers tts
  = if matchesTarget tts t then rec referrers else Done false.
Proof.
  induction tts as [| tt rest IH]; [reflexivity |].
  unfold matchesTarget. cbn [unopHandled existsb].
  fold (matchesTarget rest t).
  destruct (targetShape tt) as [t' |]; cbn [orb]; [| exact IH].
  destruct (Identical t t'); cbn [orb]; [| exact IH].
  rewrite IH. destruct (rec referrers) as [[|] | |] eqn:Hrec; cbn [bind];
    try reflexivity.
  now destruct (matchesTarget rest t).
Qed.

End OneStepComposition.

(** X1. The walk of isClosed over a list that is an append is the walk of
    the first part and, when that does not close, the walk of the second;
    so the scan of the blocks of a callee, block by block, is the walk over
    all the instructions of the callee in sequence. *)
Theorem isClosed_append (fuel : nat) :
  (forall l1 l2,
      isClosed' (S fuel) (l1 ++ l2)
      = (c <- isClosed' (S fuel) l1 ;;
         if c then Done true else isClosed' (S fuel) l2)) /\
  (forall blocks,
      anyBlockClosed (isClosed' (S fuel)) blocks
      = isClosed' (S fuel) (flat_map Instrs blocks)).
Proof.
  split.
  - intros l1 l2. apply walkRefs_app.
  - intros blocks. apply (anyBlockClosed_flat (isClosed' fuel)).
Qed.

Lemma closes_true (a : action) :
  closes a = true -> a = actionClosed \/ a = actionHandled.
Proof. destruct a; cbn; intros H; try discriminate; auto. Qed.

Lemma closes_false_inv (a : action) :
  closes a = false -> a <> actionClosed /\ a <> actionHandled.
Proof. destruct a; cbn; intros H; try discriminate; split; discriminate. Qed.

Lemma isClosed_true_split (fuel : nat) (refs : list iid) :
  isClosed' (S fuel) refs = Done true ->
  exists pre r rest a,
    refs = pre ++ r :: rest /\ Forall (goesOn' fuel) pre /\
    getAction' fuel (instrAt pssa r) = Done a /\
    (a = actionClosed \/ a = actionHandled).
Proof.
  induction refs as [| r rest IH]; [discriminate |].
  rewrite isClosed_cons.
  destruct (getAction' fuel (instrAt pssa r)) as [a | |] eqn:Ha; cbn [bind];
    try discriminate.
  destruct (closes a) eqn:Hc.
  - intros _. exists [], r, rest, a.
    repeat split; [constructor | exact Ha | now apply closes_true].
  - intros H. destruct (IH H) as (pre & r' & rest' & a' & -> & Hpre & Ha' & Hc').
    exists (r :: pre), r', rest', a'. repeat split; try assumption.
    constructor; [| exact Hpre]. exists a. split; [exact Ha |].
    now apply closes_false_inv.
Qed.

Lemma isClosed_false_all (fuel : nat) (refs : list iid) :
  isClosed' (S fuel) refs = Done false -> Forall (goesOn' fuel) refs.
Proof.
  induction refs as [| r rest IH]; [constructor |].
  rewrite isClosed_cons.
  destruct (getAction' fuel (instrAt pssa r)) as [a | |] eqn:Ha; cbn [bind];
    try discriminate.
  destruct (closes a) eqn:Hc; [discriminate |].
  intros H. constructor; [| now apply IH].
  exists a. split; [exact Ha | now apply closes_false_inv].
Qed.

(** X2. isClosed answers true exactly when some referrer is classified as
    Closed or Handled and every referrer before it is classified, as
    something else; it answers false exactly when every referrer is
    classified as something else. *)
Theorem isClosed_answer (fuel : nat) (refs : list iid) :
  (isClosed' (S fuel) refs = Done true <->
   exists pre r rest a,
     refs = pre ++ r :: rest /\ Forall (goesOn' fuel) pre /\
     getAction' fuel (instrAt pssa r) = Done a /\
     (a = actionClosed \/ a = actionHandled)) /\
  (isClosed' (S fuel) refs = Done false <-> Forall (goesOn' fuel) refs).
Proof.
  split; split.
  - apply isClosed_true_split.
  - intros (pre & r & rest & a & -> & Hpre & Ha & Hc).
    rewrite (isClosed_skip isTargetType pssa targetTypes fuel pre _ Hpre).
    rewrite isClosed_cons, Ha. destruct Hc; subst a; reflexivity.
  - apply isClosed_false_all.
  - apply isClosed_exhausted.
Qed.

(** X8. A dereference is classified as Handled exactly when its type is
    identical to a target type and the walk over its referrers closes; the
    calls of isClosed that the loop over the target types repeats do not
    change the answer, and with a type that matches no target type the
    dereference is Unhandled and its referrers are not walked. A field
    address is Handled exactly when the walk over its referrers closes. *)
Theorem handled_through_referrers (fuel : nat) (instr : Instruction)
        (referrers : list iid) :
  (forall t,
      op instr = UnOp t referrers ->
      getAction' fuel instr
      = (if matchesTarget targetTypes t
         then c <- isClosed' fuel referrers ;;
              Done (if c then actionHandled else actionUnhandled)
         else Done actionUnhandled) /\
      (getAction' fuel instr = Done actionHandled <->
       matchesTarget targetTypes t = true /\
       isClosed' fuel referrers = Done true)) /\
  (op instr = FieldAddr referrers ->
   (getAction' fuel instr = Done actionHandled <->
    isClosed' fuel referrers = Done true)).
Proof.
  split.
  - intros t Hop. unfold getAction, classify. rewrite Hop.
    rewrite unopHandled_collapse.
    destruct (matchesTarget targetTypes t); cbn [bind].
    + split; [reflexivity |].
      destruct (isClosed' fuel referrers) as [[|] | |]; cbn [bind];
        split; try discriminate; try (intros [_ H]; discriminate); auto.
    + split; [reflexivity |]. split; [discriminate | intros [H _]; discriminate].
  - intros Hop. unfold getAction, classify. rewrite Hop.
    destruct (isClosed' fuel referrers) as [[|] | |]; cbn [bind];
      split; try discriminate; auto.
Qed.

(** X9. A store into an address that is not a field address and has
    referrers is classified as Handled exactly when the scan of the blocks
    of the closures among those referrers, taken in order, finds a block
    that closes; otherwise it is Unhandled. *)
Theorem stored_capture_handled (fuel : nat) (instr : Instruction)
        (addr : Value) (aRef : iid) (aRefs : list iid) :
  op instr = Store addr ->
  kind addr <> KFieldAddr ->
  Referrers addr = Some (aRef :: aRefs) ->
  (getAction' fuel instr = Done actionHandled <->
   someBlockCloses (isClosed' fuel) (closureBlocks pssa (aRef :: aRefs))) /\
  (forall a, getAction' fuel instr = Done a ->
             a = actionHandled \/ a = actionUnhandled).
Proof.
  intros Hop Hkind Hrefs.
  assert (Heq : getAction' fuel instr
                = (c <- anyBlockClosed (isClosed' fuel)
                                       (closureBlocks pssa (aRef :: aRefs)) ;;
                   Done (if c then actionHandled else actionUnhandled))).
  { unfold getAction, classify. rewrite Hop, Hrefs.
    rewrite <- closureClosed_blocks.
    destruct (kind addr); try reflexivity. now elim Hkind. }
  rewrite Heq.
  pose proof (anyBlockClosed_true (isClosed' fuel)
                                  (closureBlocks pssa (aRef :: aRefs))) as Hiff.
  destruct (anyBlockClosed (isClosed' fuel)
                           (closureBlocks pssa (aRef :: aRefs)))
    as [[|] | |]; cbn [bind]; split;
    try (intros a [= <-]; auto); try discriminate.
  - split; [intros _; now apply Hiff | reflexivity].
  - split; [discriminate | intros H; apply Hiff in H; discriminate].
  - split; [discriminate | intros H; apply Hiff in H; discriminate].
  - split; [discriminate | intros H; apply Hiff in H; discriminate].
Qed.

End Composition.

(** ** More of the walks *)

Section Reports.

Variable isTargetType : gotype -> list any -> bool.
Variable getTargetTypes : SSA -> list string -> list any.
Variable getClosableValues :
  SSA -> BasicBlock -> nat -> list any -> list targetValue.
Variable pssa : SSA.
Variable targetTypes : list any.

Local Abbreviation isClosed' := (isClosed isTargetType pssa targetTypes).
Local Abbreviation checkDeferred' := (checkDeferred pssa targetTypes).
Local Abbreviation checkTarget' := (checkTarget isTargetType pssa targetTypes).

Lemma returnsOnly_bind {A : Type} (a : A) (m : outcome A)
      (k : A -> outcome A) :
  returnsOnly a m -> returnsOnly a (k a) -> returnsOnly a (bind m k).
Proof.
  intros [-> | [-> | ->]] Hk; cbn [bind]; [exact Hk | |];
    unfold returnsOnly; auto.
Qed.

Lemma returnsOnly_done {A : Type} (a : A) : returnsOnly a (Done a).
Proof. now left. Qed.

Lemma forEach_returnsOnly {A S : Type} (body : A -> S -> outcome S)
      (l : list A) :
  (forall x s, returnsOnly s (body x s)) ->
  forall s, returnsOnly s (forEach body l s).
Proof.
  intros Hb. induction l as [| x rest IH]; intros s; cbn [forEach].
  - apply returnsOnly_done.
  - apply returnsOnly_bind; [apply Hb | apply IH].
Qed.

Section OneStepSilent.

Variable rec : list iid -> bool -> list Diagnostic -> outcome (list Diagnostic).
Hypothesis Hrec : forall l d, returnsOnly d (rec l true d).

Lemma deferredClosures_silent (aRefs : list iid) (d : list Diagnostic) :
  returnsOnly d (deferredClosures pssa rec aRefs d).
Proof.
  revert d. apply forEach_returnsOnly. intros x s.
  destruct (op (instrAt pssa x)); try apply returnsOnly_done.
  destruct (kind fn); try apply returnsOnly_done.
  revert s. apply forEach_returnsOnly. intros b s. apply Hrec.
Qed.

Lemma walkDeferred_silent (instrs : list iid) (d : list Diagnostic) :
  returnsOnly d (walkDeferred pssa targetTypes rec instrs true d).
Proof.
  induction instrs as [| i rest IH]; cbn [walkDeferred].
  - apply returnsOnly_done.
  - destruct (op (instrAt pssa i)); try exact IH.
    + destruct (valueIsClose call); [apply returnsOnly_done |].
      destruct (methodIsClose call); [apply returnsOnly_done | exact IH].
    + destruct (valueIsClose call); [apply returnsOnly_done | exact IH].
    + destruct (Referrers addr) as [[| a l] |]; cbn [bind deref];
        [apply returnsOnly_done | | right; now left].
      apply returnsOnly_bind; [apply deferredClosures_silent | exact IH].
    + apply returnsOnly_bind; [| exact IH].
      revert d IH. intros d _. revert d.
      apply forEach_returnsOnly. intros x s.
      destruct (targetShape x); try apply returnsOnly_done.
      destruct (Identical ty g); [apply Hrec | apply returnsOnly_done].
    + apply returnsOnly_bind; [apply Hrec | exact IH].
Qed.

End OneStepSilent.

Lemma checkDeferred_silent (fuel : nat) :
  forall instrs d, returnsOnly d (checkDeferred' fuel instrs true d).
Proof.
  induction fuel as [| n IH]; intros instrs d; cbn [checkDeferred].
  - right. now right.
  - now apply walkDeferred_silent.
Qed.

(** X10. Inside a deferred context checkDeferred reports nothing: when it
    returns, the diagnostics are those it was given. The closures that
    capture a stored address are walked in that context, so the walk of the
    referrers of a store never adds a diagnostic, whether the closure is
    deferred or not. *)
Theorem deferred_context_is_silent (fuel : nat) (instrs : list iid)
        (d : list Diagnostic) :
  returnsOnly d (checkDeferred' fuel instrs true d) /\
  returnsOnly d (deferredClosures pssa (checkDeferred' fuel) instrs d).
Proof.
  split; [apply checkDeferred_silent |].
  apply deferredClosures_silent. intros l e. apply checkDeferred_silent.
Qed.

Lemma forEach_emits {A : Type} (P : Diagnostic -> Prop)
      (body : A -> list Diagnostic -> outcome (list Diagnostic)) (l : list A) :
  (forall x d, body x d = prepend d (body x [])) ->
  (forall x e, body x [] = Done e -> Forall P e) ->
  forall e, forEach body l [] = Done e -> Forall P e.
Proof.
  intros Hframe Hbody. induction l as [| x rest IH]; intros e; cbn [forEach].
  - intros [= <-]. constructor.
  - destruct (body x []) as [e1 | |] eqn:Hb; cbn [bind]; try discriminate.
    rewrite (forEach_frame body rest Hframe e1).
    destruct (forEach body rest []) as [e2 | |]; cbn [prepend];
      try discriminate.
    intros [= <-]. apply Forall_app. split; [now apply (Hbody x) | now apply IH].
Qed.

Lemma bind_emits (P : Diagnostic -> Prop) (m : outcome (list Diagnostic))
      (k : list Diagnostic -> outcome (list Diagnostic)) (e : list Diagnostic) :
  (forall e1, m = Done e1 -> Forall P e1) ->
  (forall d, k d = prepend d (k [])) ->
  (forall e2, k [] = Done e2 -> Forall P e2) ->
  bind m k = Done e -> Forall P e.
Proof.
  intros Hm Hframe Hk. destruct m as [e1 | |]; cbn [bind]; try discriminate.
  rewrite (Hframe e1). destruct (k []) as [e2 | |]; cbn [prepend];
    try discriminate.
  intros [= <-]. apply Forall_app. split; [now apply Hm | now apply Hk].
Qed.

Section OneStepEmits.

Variable rec : list iid -> bool -> list Diagnostic -> outcome (list Diagnostic).
Hypothesis Hframe : forall l b d, rec l b d = prepend d (rec l b []).
Hypothesis Hemits : forall l b e, rec l b [] = Done e -> Forall (useDeferAt pssa) e.

Lemma deferredClosures_emits (aRefs : list iid) (e : list Diagnostic) :
  deferredClosures pssa rec aRefs [] = Done e -> Forall (useDeferAt pssa) e.
Proof.
  apply forEach_emits.
  - intros x d. destruct (op (instrAt pssa x)); try apply prepend_done.
    destruct (kind fn); try apply prepend_done.
    now apply deferredBlocks_frame.
  - intros x e'. destruct (op (instrAt pssa x));
      try (intros [= <-]; constructor).
    destruct (kind fn); try (intros [= <-]; constructor).
    apply forEach_emits; [intros; apply Hframe | intros b; apply Hemits].
Qed.

Lemma deferredUnOp_emits (t : gotype) (referrers : list iid) (b : bool)
      (e : list Diagnostic) :
  deferredUnOp targetTypes rec t referrers b [] = Done e ->
  Forall (useDeferAt pssa) e.
Proof.
  apply forEach_emits.
  - intros x d. destruct (targetShape x); try apply prepend_done.
    destruct (Identical t g); [apply Hframe | apply prepend_done].
  - intros x e'. destruct (targetShape x); try (intros [= <-]; constructor).
    destruct (Identical t g); [apply Hemits | intros [= <-]; constructor].
Qed.

Lemma walkDeferred_emits (instrs : list iid) (b : bool) :
  forall e, walkDeferred pssa targetTypes rec instrs b [] = Done e ->
            Forall (useDeferAt pssa) e.
Proof.
  induction instrs as [| i rest IH]; intros e; cbn [walkDeferred].
  - intros [= <-]. constructor.
  - destruct (op (instrAt pssa i)) eqn:Hop; try apply IH.
    + destruct (valueIsClose call); [intros [= <-]; constructor |].
      destruct (methodIsClose call); [intros [= <-]; constructor | apply IH].
    + destruct (valueIsClose call) eqn:Hv; [| apply IH].
      destruct b; intros [= <-]; constructor; [| constructor].
      split; [reflexivity |]. exists i. split; [| reflexivity].
      unfold bareCleanup. now rewrite Hop.
    + destruct (Referrers addr) as [[| a l] |]; cbn [bind deref];
        [intros [= <-]; constructor | | discriminate].
      apply bind_emits; [apply deferredClosures_emits | | apply IH].
      intros d. now apply walkDeferred_frame.
    + apply bind_emits; [apply deferredUnOp_emits | | apply IH].
      intros d. now apply walkDeferred_frame.
    + apply bind_emits; [apply Hemits | | apply IH].
      intros d. now apply walkDeferred_frame.
Qed.

End OneStepEmits.

Lemma checkDeferred_emits (fuel : nat) :
  forall instrs b e,
    checkDeferred' fuel instrs b [] = Done e -> Forall (useDeferAt pssa) e.
Proof.
  induction fuel as [| n IH]; intros instrs b e; cbn [checkDeferred].
  - discriminate.
  - apply walkDeferred_emits; [| exact IH].
    intros l b' d. apply checkDeferred_frame.
Qed.

Lemma prepend_inv (d e' : list Diagnostic) (r : outcome (list Diagnostic)) :
  prepend d r = Done e' -> exists e, r = Done e /\ e' = d ++ e.
Proof.
  destruct r as [e | |]; cbn [prepend]; try discriminate.
  intros [= <-]. now exists e.
Qed.

(** X11. Whatever checkDeferred adds to the diagnostics is added after
    those it was given, and every diagnostic it adds is "Close should use
    defer", positioned at a call of the program whose value is named
    Close. *)
Theorem checkDeferred_reports_bare_calls (fuel : nat) (instrs : list iid)
        (b : bool) (d d' : list Diagnostic) :
  checkDeferred' fuel instrs b d = Done d' ->
  exists e, d' = d ++ e /\ Forall (useDeferAt pssa) e.
Proof.
  rewrite checkDeferred_frame. intros H.
  apply prepend_inv in H as (e & He & ->).
  exists e. split; [reflexivity |]. now apply checkDeferred_emits in He.
Qed.

Lemma countNotClosed_app (e1 e2 : list Diagnostic) :
  countNotClosed (e1 ++ e2) = countNotClosed e1 + countNotClosed e2.
Proof. unfold countNotClosed. now rewrite filter_app, length_app. Qed.

Lemma countNotClosed_useDefer (e : list Diagnostic) :
  Forall (useDeferAt pssa) e -> countNotClosed e = 0.
Proof.
  induction 1 as [| x e [Hmsg _] _ IH]; [reflexivity |].
  unfold countNotClosed in *. cbn [filter]. now rewrite Hmsg.
Qed.

(** What Run reports for one closable value: "not closed" at its
    instruction when isClosed answers false, then what checkDeferred
    adds. *)
Lemma checkTarget_emits (fuel : nat) (tv : targetValue) (e : list Diagnostic) :
  checkTarget' fuel tv [] = Done e ->
  exists refs closed e2,
    Referrers (value tv) = Some refs /\
    isClosed' fuel refs = Done closed /\
    e = (if closed then []
         else [mkDiag (Pos (instr tv)) msgNotClosed]) ++ e2 /\
    Forall (useDeferAt pssa) e2.
Proof.
  unfold checkTarget.
  destruct (Referrers (value tv)) as [refs |]; cbn [bind deref];
    [| discriminate].
  destruct (isClosed' fuel refs) as [closed | |] eqn:Hclosed; cbn [bind];
    try discriminate.
  rewrite checkDeferred_frame. intros H.
  apply prepend_inv in H as (e2 & He2 & ->).
  exists refs, closed, e2.
  split; [reflexivity |]. split; [exact Hclosed |]. split.
  - now destruct closed.
  - now apply checkDeferred_emits in He2.
Qed.

Lemma targets_emit (fuel : nat) (tvs : list targetValue) :
  forall e,
    forEach (checkTarget' fuel) tvs [] = Done e ->
    Forall (fun x => notClosedAt tvs x \/ useDeferAt pssa x) e /\
    countNotClosed e <= List.length tvs.
Proof.
  induction tvs as [| tv rest IH]; intros e; cbn [forEach].
  - intros [= <-]. split; [constructor | apply Nat.le_refl].
  - destruct (checkTarget' fuel tv []) as [e1 | |] eqn:H1; cbn [bind];
      try discriminate.
    rewrite (forEach_frame (checkTarget' fuel) rest
                           (checkTarget_frame isTargetType pssa targetTypes fuel)
                           e1).
    intros H. apply prepend_inv in H as (e2 & He2 & ->).
    destruct (IH e2 He2) as [Hall Hcount].
    destruct (checkTarget_emits fuel tv e1 H1)
      as (refs & closed & e1' & _ & _ & -> & Huse).
    split.
    + apply Forall_app. split; [apply Forall_app; split |].
      * destruct closed; constructor; [| constructor].
        left. split; [reflexivity |]. exists tv. split; [now left | reflexivity].
      * eapply Forall_impl; [| exact Huse]. intros x Hx. now right.
      * eapply Forall_impl; [| exact Hall].
        intros x [[Hmsg (tv' & Hin & Hpos)] | Hx]; [left | now right].
        split; [exact Hmsg |]. exists tv'. split; [now right | exact Hpos].
    + rewrite !countNotClosed_app, (countNotClosed_useDefer e1' Huse).
      cbn [List.length]. destruct closed; cbn; lia.
Qed.

Lemma forEach_flat_map {A B S : Type} (body : B -> S -> outcome S)
      (g : A -> list B) (l : list A) :
  forall s,
    forEach (fun x s' => forEach body (g x) s') l s
    = forEach body (flat_map g l) s.
Proof.
  induction l as [| x rest IH]; intros s; [reflexivity |].
  cbn [forEach flat_map].
  assert (Happ : forall l1 l2 s0,
             forEach body (l1 ++ l2) s0
             = bind (forEach body l1 s0) (forEach body l2)).
  { induction l1 as [| y l1 IH1]; intros l2 s0; [reflexivity |].
    cbn [forEach app]. destruct (body y s0); cbn [bind]; auto. }
  rewrite Happ. destruct (forEach body (g x) s); cbn [bind]; auto.
Qed.

Lemma forEach_ext {A S : Type} (b1 b2 : A -> S -> outcome S) (l : list A) :
  (forall x s, b1 x s = b2 x s) ->
  forall s, forEach b1 l s = forEach b2 l s.
Proof.
  intros Hb. induction l as [| x rest IH]; intros s; [reflexivity |].
  cbn [forEach]. rewrite Hb. destruct (b2 x s); cbn [bind]; auto.
Qed.

(** The three nested loops of Run are one loop over the closable values. *)
Lemma scanFuncs_flat (fuel : nat) (d : list Diagnostic) :
  scanFuncs isTargetType getClosableValues pssa targetTypes fuel
            (SrcFuncs pssa) d
  = forEach (checkTarget' fuel)
            (closableValues getClosableValues pssa targetTypes) d.
Proof.
  unfold scanFuncs, closableValues.
  rewrite <- forEach_flat_map. apply forEach_ext. intros f s.
  rewrite <- forEach_flat_map. apply forEach_ext. intros b s'.
  unfold scanBlock. apply forEach_flat_map.
Qed.

End Reports.

Section RunReports.

Variable isTargetType : gotype -> list any -> bool.
Variable getTargetTypes : SSA -> list string -> list any.
Variable getClosableValues :
  SSA -> BasicBlock -> nat -> list any -> list targetValue.

Local Abbreviation Run' := (Run isTargetType getTargetTypes getClosableValues).

(** X12. When target types are resolved, Run is one loop over the closable
    values of the program, in the order function, block, instruction index,
    each value being checked after the diagnostics of the values before it;
    a program without closable values is left without diagnostics and
    without any walk, whatever the fuel. *)
Theorem Run_scan_order (fuel : nat) (pass : Pass) (pssa : SSA) :
  ResultOf pass = Some pssa ->
  (getTargetTypes pssa sqlPackages <> [] ->
   Run' fuel pass
   = (d <- forEach (checkTarget isTargetType pssa
                                (getTargetTypes pssa sqlPackages) fuel)
                   (closableValues getClosableValues pssa
                                   (getTargetTypes pssa sqlPackages))
                   (Diagnostics pass) ;;
      Done (mkPass (ResultOf pass) d))) /\
  (closableValues getClosableValues pssa (getTargetTypes pssa sqlPackages) = [] ->
   Run' fuel pass = Done pass /\ Run' 0 pass = Done pass).
Proof.
  intros Hssa.
  assert (Hrun : forall n,
             getTargetTypes pssa sqlPackages <> [] ->
             Run' n pass
             = (d <- forEach (checkTarget isTargetType pssa
                                          (getTargetTypes pssa sqlPackages) n)
                             (closableValues getClosableValues pssa
                                             (getTargetTypes pssa sqlPackages))
                             (Diagnostics pass) ;;
                Done (mkPass (ResultOf pass) d))).
  { intros n Hne. unfold Run. rewrite Hssa.
    destruct (getTargetTypes pssa sqlPackages) as [| tt tts] eqn:Htts;
      [now elim Hne |].
    now rewrite scanFuncs_flat. }
  split; [apply Hrun |].
  intros Hnone.
  assert (Hboth : forall n, Run' n pass = Done pass).
  { intros n.
    case_eq (getTargetTypes pssa sqlPackages); [intros Htts | intros tt tts Htts].
    - unfold Run. now rewrite Hssa, Htts.
    - rewrite Hrun by (rewrite Htts; discriminate).
      rewrite Hnone. cbn [forEach bind].
      destruct pass as [s ds]. reflexivity. }
  split; apply Hboth.
Qed.

(** X13. What a run adds to the diagnostics of the pass is made of
    "not closed" diagnostics, each at the instruction of a closable value
    of the program, and of "Close should use defer" diagnostics, each at a
    call of the program whose value is named Close; there are at most as
    many "not closed" diagnostics as closable values. *)
Theorem Run_reports (fuel : nat) (pass pass' : Pass) (pssa : SSA) :
  ResultOf pass = Some pssa ->
  Run' fuel pass = Done pass' ->
  exists e,
    Diagnostics pass' = Diagnostics pass ++ e /\
    Forall (fun x =>
              notClosedAt (closableValues getClosableValues pssa
                                          (getTargetTypes pssa sqlPackages)) x
              \/ useDeferAt pssa x) e /\
    countNotClosed e
    <= List.length (closableValues getClosableValues pssa
                                   (getTargetTypes pssa sqlPackages)).
Proof.
  intros Hssa. unfold Run. rewrite Hssa.
  destruct (getTargetTypes pssa sqlPackages) as [| tt tts] eqn:Htts.
  - intros [= <-]. exists []. rewrite app_nil_r.
    repeat split; [constructor | apply Nat.le_0_l].
  - rewrite scanFuncs_flat.
    rewrite (forEach_frame (checkTarget isTargetType pssa (tt :: tts) fuel) _
                           (checkTarget_frame isTargetType pssa (tt :: tts) fuel)).
    destruct (forEach (checkTarget isTargetType pssa (tt :: tts) fuel)
                      (closableValues getClosableValues pssa (tt :: tts)) [])
      as [e | |] eqn:He; cbn [prepend bind]; try discriminate.
    intros [= <-]. exists e. cbn [Diagnostics].
    split; [reflexivity |].
    now apply (targets_emit isTargetType pssa (tt :: tts) fuel).
Qed.

End RunReports.

(** ** Edges of the walks *)

Section Edges.

Variable isTargetType : gotype -> list any -> bool.
Variable pssa : SSA.
Variable targetTypes : list any.

Local Abbreviation isClosed' := (isClosed isTargetType pssa targetTypes).
Local Abbreviation getAction' := (getAction isTargetType pssa targetTypes).
Local Abbreviation classify' := (classify isTargetType pssa targetTypes).
Local Abbreviation checkTarget' := (checkTarget isTargetType pssa targetTypes).
Local Abbreviation checkDeferred' := (checkDeferred pssa targetTypes).
Local Abbreviation goesOn' := (goesOn isTargetType pssa targetTypes).
Local Abbreviation inert := (fun r => deferInert (instrAt pssa r) = true).

Section OneStepNever.

Variable rec : list iid -> outcome bool.
Hypothesis Hrec : forall l, rec l <> Done true.

Lemma anyBlockClosed_never (blocks : list BasicBlock) :
  anyBlockClosed rec blocks <> Done true.
Proof.
  induction blocks as [| b bs IH]; cbn [anyBlockClosed]; [discriminate |].
  destruct (rec (Instrs b)) as [[|] | |] eqn:Hb; cbn [bind];
    try discriminate; [now elim (Hrec (Instrs b)) | exact IH].
Qed.

Lemma scan_never (blocks : list BasicBlock) (yes no : action) (a : action) :
  (c <- anyBlockClosed rec blocks ;; Done (if c then yes else no)) = Done a ->
  a = no.
Proof.
  pose proof (anyBlockClosed_never blocks) as Hnever.
  destruct (anyBlockClosed rec blocks) as [[|] | |]; cbn [bind];
    try discriminate; [now elim Hnever | now intros [= <-]].
Qed.

Lemma classify_never (instr : Instruction) (a : action) :
  bareCleanup instr = false -> deferredCleanup instr = false ->
  classify' rec instr = Done a -> closes a = false.
Proof.
  unfold bareCleanup, deferredCleanup, valueIsClose, methodIsClose, classify.
  intros Hbare Hdeferred.
  destruct (op instr); try (intros [= <-]; reflexivity).
  - destruct (CallValue call) as [v |]; [| discriminate].
    apply orb_false_iff in Hdeferred as [Hv Hm]. rewrite Hv.
    destruct (Method call) as [m |]; [rewrite Hm; now intros [= <-] |].
    destruct (kind v); try (intros [= <-]; reflexivity).
    intros H. now rewrite (scan_never _ _ _ _ H).
  - destruct (CallValue call) as [v |]; [| discriminate]. cbv zeta.
    rewrite Hbare, andb_false_r.
    destruct (calleeIsTarget isTargetType pssa targetTypes call v);
      cbn [negb]; [now intros [= <-] |].
    destruct (StaticCallee call); [| now intros [= <-]].
    intros H. now rewrite (scan_never _ _ _ _ H).
  - destruct (kind addr); try (intros [= <-]; reflexivity);
      (destruct (Referrers addr) as [[| r l] |]; cbn [bind deref];
       [now intros [= <-] | | discriminate];
       rewrite closureClosed_blocks; intros H;
       now rewrite (scan_never _ _ _ _ H)).
  - rewrite unopHandled_collapse.
    destruct (matchesTarget targetTypes ty); [| now intros [= <-]].
    pose proof (Hrec referrers) as Hr.
    destruct (rec referrers) as [[|] | |]; cbn [bind]; try discriminate;
      [now elim Hr | now intros [= <-]].
  - pose proof (Hrec referrers) as Hr.
    destruct (rec referrers) as [[|] | |]; cbn [bind]; try discriminate;
      [now elim Hr | now intros [= <-]].
  - destruct (existsb _ results); now intros [= <-].
Qed.

Lemma walkRefs_never (refs : list iid) :
  noCloseName pssa ->
  walkRefs isTargetType pssa targetTypes rec refs <> Done true.
Proof.
  intros Hno. induction refs as [| r rest IH]; cbn [walkRefs]; [discriminate |].
  destruct (classify' rec (instrAt pssa r)) as [a | |] eqn:Ha; cbn [bind];
    try discriminate.
  destruct (Hno r) as [Hbare Hdeferred].
  now rewrite (classify_never _ a Hbare Hdeferred Ha).
Qed.

End OneStepNever.

Lemma isClosed_never (fuel : nat) :
  noCloseName pssa -> forall refs, isClosed' fuel refs <> Done true.
Proof.
  intros Hno. induction fuel as [| n IH]; intros refs; cbn [isClosed].
  - discriminate.
  - now apply walkRefs_never.
Qed.

(** X3. In a program where no call and no deferred call is named Close,
    isClosed never answers true, and every closable value whose check
    returns gets exactly the one diagnostic "not closed". *)
Theorem nothing_named_Close_nothing_closed :
  noCloseName pssa ->
  (forall fuel refs, isClosed' fuel refs <> Done true) /\
  (forall fuel tv d d',
      checkTarget' fuel tv d = Done d' ->
      d' = d ++ [mkDiag (Pos (instr tv)) msgNotClosed]).
Proof.
  intros Hno. split; [intros fuel; now apply isClosed_never |].
  intros fuel tv d d'. rewrite checkTarget_frame. intros H.
  apply prepend_inv in H as (e & He & ->). f_equal.
  destruct (checkTarget_emits isTargetType pssa targetTypes fuel tv e He)
    as (refs & closed & e2 & _ & Hclosed & -> & Huse).
  destruct closed; [now elim (isClosed_never fuel Hno refs) |].
  destruct Huse as [| x e2 (_ & i & Hbare & _) _]; [reflexivity |].
  destruct (Hno i) as [Hb _]. congruence.
Qed.

Lemma existsb_matchesTarget (results : list Value) :
  existsb (fun result => matchesTarget targetTypes (Type_ result)) results
  = true ->
  exists result targetType t,
    In result results /\ In targetType targetTypes /\
    targetShape targetType = Some t /\ Identical (Type_ result) t = true.
Proof.
  intros H. apply existsb_exists in H as (result & Hin & Hm).
  unfold matchesTarget in Hm. apply existsb_exists in Hm as (tt & Htt & Ht).
  destruct (targetShape tt) as [t |] eqn:Hshape; [| discriminate].
  now exists result, tt, t.
Qed.

(** X4. What the actions stand for. getAction never answers UnvaluedCall;
    it answers Passed only for a merge or a boxing, NoOp only for a store
    whose address has no referrers, Returned only for a return that carries
    a result of a target type or for a store into a field address,
    UnvaluedDefer only for a deferred call, Closed only for a call or a
    deferred call, and Handled only for a store, a dereference or a field
    address. *)
Theorem getAction_range (fuel : nat) (instr : Instruction) (a : action) :
  getAction' fuel instr = Done a ->
  a <> actionUnvaluedCall /\
  (a = actionPassed -> isMergeOrBox instr = true) /\
  (a = actionNoOp -> deadStore instr) /\
  (a = actionReturned ->
   returnsTarget targetTypes instr \/ storesInField instr) /\
  (a = actionUnvaluedDefer -> exists call, op instr = Defer call) /\
  (a = actionClosed ->
   exists call, op instr = Defer call \/ exists res, op instr = Call call res) /\
  (a = actionHandled ->
   (exists addr, op instr = Store addr) \/
   (exists t referrers, op instr = UnOp t referrers) \/
   (exists referrers, op instr = FieldAddr referrers)).
Proof.
  unfold getAction, classify, isMergeOrBox, deadStore, returnsTarget,
    storesInField.
  destruct (op instr) eqn:Hop.
  - destruct (CallValue call) as [v |]; [| discriminate].
    assert (Hgoal : a = actionClosed \/ a = actionUnvaluedDefer ->
                    a <> actionUnvaluedCall /\
                    (a = actionPassed -> false = true) /\
                    (a = actionNoOp -> False) /\
                    (a = actionReturned -> False \/ False) /\
                    (a = actionUnvaluedDefer ->
                     exists call0, Defer call = Defer call0) /\
                    (a = actionClosed ->
                     exists call0, Defer call = Defer call0 \/
                                   exists res, Defer call = Call call0 res) /\
                    (a = actionHandled ->
                     (exists addr, Defer call = Store addr) \/
                     (exists t referrers, Defer call = UnOp t referrers) \/
                     (exists referrers, Defer call = FieldAddr referrers))).
    { intros [-> | ->]; repeat split; try discriminate;
        intros _; exists call; auto. }
    destruct (eqClose (Name v)); [intros [= <-]; auto |].
    destruct (Method call) as [m |];
      [destruct (eqClose m); intros [= <-]; auto |].
    destruct (kind v); try (intros [= <-]; auto).
    destruct (anyBlockClosed _ _) as [[|] | |]; cbn [bind];
      intros [= <-]; auto.
  - intros H.
    assert (Hr : a = actionClosed \/ a = actionUnhandled).
    { revert H. destruct (CallValue call) as [v |]; [| discriminate]. cbv zeta.
      destruct (calleeIsTarget _ _ _ _ _); cbn [andb negb];
        [destruct (eqClose (Name v)); intros [= <-]; auto |].
      destruct (StaticCallee call); [| intros [= <-]; auto].
      destruct (anyBlockClosed _ _) as [[|] | |]; cbn [bind];
        intros [= <-]; auto. }
    destruct Hr as [-> | ->]; repeat split; try discriminate.
    intros _. exists call. right. now exists res.
  - intros [= <-]. repeat split; discriminate.
  - intros [= <-]. repeat split; discriminate.
  - intros H.
    assert (Hr : (a = actionReturned /\ kind addr = KFieldAddr) \/
                 (a = actionNoOp /\ Referrers addr = Some []) \/
                 a = actionHandled \/ a = actionUnhandled).
    { revert H. destruct (kind addr) eqn:Hk; try (intros [= <-]; auto);
        (destruct (Referrers addr) as [[| r l] |]; cbn [bind deref];
         [intros [= <-]; auto | | discriminate];
         destruct (closureClosed _ _ _) as [[|] | |]; cbn [bind];
         intros [= <-]; auto). }
    destruct Hr as [[-> Hk] | [[-> Hr] | [-> | ->]]];
      repeat split; try discriminate; auto.
    intros _. left. now exists addr.
  - intros H.
    assert (Hr : a = actionHandled \/ a = actionUnhandled).
    { revert H. destruct (unopHandled _ _ _ _) as [[|] | |]; cbn [bind];
        intros [= <-]; auto. }
    destruct Hr as [-> | ->]; repeat split; try discriminate.
    intros _. right. left. now exists ty, referrers.
  - intros H.
    assert (Hr : a = actionHandled \/ a = actionUnhandled).
    { revert H. destruct (isClosed' fuel referrers) as [[|] | |]; cbn [bind];
        intros [= <-]; auto. }
    destruct Hr as [-> | ->]; repeat split; try discriminate.
    intros _. right. right. now exists referrers.
  - destruct (existsb _ results) eqn:Hex; intros [= <-];
      repeat split; try discriminate.
    intros _. left. now apply existsb_matchesTarget.
  - intros [= <-]. repeat split; discriminate.
  - intros [= <-]. repeat split; discriminate.
Qed.

(** X5. A call or a deferred call without a value makes getAction panic
    (the trace of lines 159 and 187 reads the name of the value before the
    nil tests), so isClosed panics as soon as its walk reaches one, while
    checkDeferred, which tests for nil first, steps over it (unless it is a
    deferred call of a method named Close, which ends that walk). *)
Theorem nil_call_value (fuel : nat) (pre : list iid) (r : iid)
        (rest : list iid) (call : CallCommon) :
  op (instrAt pssa r) = Defer call \/
  (exists res, op (instrAt pssa r) = Call call res) ->
  CallValue call = None ->
  Forall (goesOn' fuel) pre ->
  getAction' fuel (instrAt pssa r) = Panics /\
  isClosed' (S fuel) (pre ++ r :: rest) = Panics /\
  (forall b d,
      methodIsClose call = false ->
      checkDeferred' (S fuel) (r :: rest) b d
      = checkDeferred' (S fuel) rest b d).
Proof.
  intros Hop Hnil Hpre.
  assert (Hpanic : getAction' fuel (instrAt pssa r) = Panics).
  { unfold getAction, classify.
    destruct Hop as [-> | [res ->]]; now rewrite Hnil. }
  split; [exact Hpanic |]. split.
  - rewrite (isClosed_skip isTargetType pssa targetTypes fuel pre _ Hpre).
    now rewrite isClosed_cons, Hpanic.
  - intros b d Hm. cbn [checkDeferred walkDeferred].
    unfold valueIsClose.
    destruct Hop as [-> | [res ->]]; rewrite Hnil; [| reflexivity].
    now rewrite Hm.
Qed.

(** X6. A store whose address has no referrer list (Referrers() is nil, as
    for a package-level variable) and is not a field address makes
    getAction panic on line 246 and checkDeferred on line 339: the walks
    that reach it panic, and so does the check of a closable value that
    has such a store among its referrers. *)
Theorem nil_store_referrers (fuel : nat) (pre : list iid) (s : iid)
        (rest : list iid) (addr : Value) :
  op (instrAt pssa s) = Store addr ->
  Referrers addr = None ->
  kind addr <> KFieldAddr ->
  getAction' fuel (instrAt pssa s) = Panics /\
  (Forall (goesOn' fuel) pre ->
   isClosed' (S fuel) (pre ++ s :: rest) = Panics) /\
  (Forall inert pre ->
   forall b d, checkDeferred' (S fuel) (pre ++ s :: rest) b d = Panics) /\
  (Forall (goesOn' fuel) pre ->
   forall tv d,
     Referrers (value tv) = Some (pre ++ s :: rest) ->
     checkTarget' (S fuel) tv d = Panics).
Proof.
  intros Hop Hnil Hkind.
  assert (Hpanic : getAction' fuel (instrAt pssa s) = Panics).
  { unfold getAction, classify. rewrite Hop, Hnil.
    destruct (kind addr); try reflexivity. now elim Hkind. }
  assert (Hwalk : Forall (goesOn' fuel) pre ->
                  isClosed' (S fuel) (pre ++ s :: rest) = Panics).
  { intros Hpre.
    rewrite (isClosed_skip isTargetType pssa targetTypes fuel pre _ Hpre).
    now rewrite isClosed_cons, Hpanic. }
  split; [exact Hpanic |]. split; [exact Hwalk |]. split.
  - intros Hpre b d. cbn [checkDeferred].
    rewrite (walkDeferred_inert pssa targetTypes _ pre _ b d Hpre).
    cbn [walkDeferred]. now rewrite Hop, Hnil.
  - intros Hpre tv d Hrefs. unfold checkTarget. rewrite Hrefs.
    cbn [bind deref]. now rewrite (Hwalk Hpre).
Qed.

Lemma getAction_dead_store (fuel : nat) (instr : Instruction) :
  deadStore instr ->
  getAction' fuel instr = Done actionReturned \/
  getAction' fuel instr = Done actionNoOp.
Proof.
  unfold deadStore, getAction, classify.
  destruct (op instr); try contradiction. intros ->.
  destruct (kind addr); auto.
Qed.

(** X7. isClosed steps over a store whose address has no referrers, while
    checkDeferred ends at it. So for a closable value with such a store
    among its referrers, after referrers that both walks step over, what
    comes after the store still decides whether the value is closed, but
    is never reported as a bare call: closed after the store, the value
    gets no diagnostic at all. *)
Theorem dead_store_hides_bare_close (fuel : nat) (tv : targetValue)
        (pre : list iid) (s : iid) (rest : list iid) (d : list Diagnostic) :
  Referrers (value tv) = Some (pre ++ s :: rest) ->
  Forall (goesOn' fuel) pre ->
  Forall inert pre ->
  deadStore (instrAt pssa s) ->
  isClosed' (S fuel) (pre ++ s :: rest) = isClosed' (S fuel) rest /\
  (isClosed' (S fuel) rest = Done true ->
   checkTarget' (S fuel) tv d = Done d) /\
  (isClosed' (S fuel) rest = Done false ->
   checkTarget' (S fuel) tv d
   = Done (d ++ [mkDiag (Pos (instr tv)) msgNotClosed])).
Proof.
  intros Hrefs Hpre Hinert Hdead.
  assert (Hwalk : isClosed' (S fuel) (pre ++ s :: rest)
                  = isClosed' (S fuel) rest).
  { rewrite (isClosed_skip isTargetType pssa targetTypes fuel pre _ Hpre).
    rewrite isClosed_cons.
    now destruct (getAction_dead_store fuel _ Hdead) as [-> | ->]. }
  assert (Hdeferred : forall d',
             checkDeferred' (S fuel) (pre ++ s :: rest) false d' = Done d').
  { intros d'. cbn [checkDeferred].
    rewrite (walkDeferred_inert pssa targetTypes _ pre _ false d' Hinert).
    now apply walkDeferred_dead. }
  split; [exact Hwalk |].
  split; intros Hrest; unfold checkTarget; rewrite Hrefs; cbn [bind deref];
    rewrite Hwalk, Hrest; cbn [bind]; apply Hdeferred.
Qed.

End Edges.

(** ** The run returns *)

Section Returns.

Variable isTargetType : gotype -> list any -> bool.
Variable getTargetTypes : SSA -> list string -> list any.
Variable getClosableValues :
  SSA -> BasicBlock -> nat -> list any -> list targetValue.
Variable pssa : SSA.
Variable targetTypes : list any.

Local Abbreviation isClosed' := (isClosed isTargetType pssa targetTypes).
Local Abbreviation checkDeferred' := (checkDeferred pssa targetTypes).
Local Abbreviation checkTarget' := (checkTarget isTargetType pssa targetTypes).

(** An outcome that is a result. *)
Lemma returns_bind {A B : Type} (m : outcome A) (k : A -> outcome B) :
  (exists a, m = Done a) -> (forall a, exists b, k a = Done b) ->
  exists b, bind m k = Done b.
Proof. intros [a ->] Hk. cbn [bind]. apply Hk. Qed.

Lemma forEach_returns {A S : Type} (body : A -> S -> outcome S) (l : list A) :
  (forall x, In x l -> forall s, exists s', body x s = Done s') ->
  forall s, exists s', forEach body l s = Done s'.
Proof.
  induction l as [| x rest IH]; intros Hb s; cbn [forEach].
  - now exists s.
  - apply returns_bind; [apply Hb; now left |].
    intros s'. apply IH. intros y Hy. apply Hb. now right.
Qed.

Section OneStepReturns.

Variable rec : list iid -> bool -> list Diagnostic -> outcome (list Diagnostic).

Lemma deferredClosures_returns (aRefs : list iid) :
  (forall l, In l (closureBodies pssa aRefs) ->
             forall b d, exists d', rec l b d = Done d') ->
  forall d, exists d', deferredClosures pssa rec aRefs d = Done d'.
Proof.
  intros H. apply forEach_returns. intros aRef Hin s.
  assert (Hhead : forall l,
             In l (match op (instrAt pssa aRef) with
                   | MakeClosure fn =>
                       match kind fn with
                       | KFunction f => map Instrs (Blocks (funcAt pssa f))
                       | _ => []
                       end
                   | _ => []
                   end) -> In l (closureBodies pssa aRefs)).
  { intros l Hl. unfold closureBodies. apply in_flat_map.
    now exists aRef. }
  destruct (op (instrAt pssa aRef)); try (now exists s).
  destruct (kind fn); try (now exists s).
  apply forEach_returns. intros b Hb s'. apply H. apply Hhead.
  now apply in_map.
Qed.

Lemma walkDeferred_returns (instrs : list iid) (b : bool) :
  (forall r addr, In r instrs -> op (instrAt pssa r) = Store addr ->
                  Referrers addr <> None) ->
  (forall r l, In r instrs -> In l (followed pssa (instrAt pssa r)) ->
               forall b' d, exists d', rec l b' d = Done d') ->
  forall d, exists d', walkDeferred pssa targetTypes rec instrs b d = Done d'.
Proof.
  induction instrs as [| i rest IH]; intros Hstore Hrec d; cbn [walkDeferred].
  - now exists d.
  - assert (Hrest : forall d0,
               exists d',
                 walkDeferred pssa targetTypes rec rest b d0 = Done d').
    { apply IH.
      - intros r addr Hr. apply Hstore. now right.
      - intros r l Hr. apply Hrec. now right. }
    pose proof (Hstore i) as Hs. pose proof (Hrec i) as Hi.
    unfold followed in Hi.
    destruct (op (instrAt pssa i)); try apply Hrest.
    + destruct (valueIsClose call); [now eexists |].
      destruct (methodIsClose call); [now eexists | apply Hrest].
    + destruct (valueIsClose call); [now eexists | apply Hrest].
    + specialize (Hs addr (or_introl eq_refl) eq_refl).
      destruct (Referrers addr) as [[| a l] |]; cbn [bind deref];
        [now eexists | | now elim Hs].
      apply returns_bind; [| apply Hrest].
      apply deferredClosures_returns. intros l' Hl'.
      apply Hi; [now left | exact Hl'].
    + apply returns_bind; [| apply Hrest].
      apply forEach_returns. intros x _ s.
      destruct (targetShape x); [| now eexists].
      destruct (Identical ty g); [| now eexists].
      apply Hi; now left.
    + apply returns_bind; [| apply Hrest]. apply Hi; now left.
Qed.

End OneStepReturns.

Lemma checkDeferred_returns (rank : iid -> nat) :
  acyclic pssa rank ->
  noNilStore pssa ->
  forall fuel instrs b d,
    (forall r, In r instrs -> rank r < fuel) ->
    exists d', checkDeferred' (S fuel) instrs b d = Done d'.
Proof.
  intros Hacyclic Hstore. induction fuel as [| n IH];
    intros instrs b d Hrank; cbn [checkDeferred];
    apply walkDeferred_returns.
  - intros r addr _. apply Hstore.
  - intros r l Hr. specialize (Hrank r Hr). lia.
  - intros r addr _. apply Hstore.
  - intros r l Hr Hl b' d0. apply IH. intros j Hj.
    specialize (Hacyclic r l j Hl Hj). specialize (Hrank r Hr). lia.
Qed.

Lemma isClosed_returns (rank : iid -> nat) :
  acyclic pssa rank ->
  noNilDeref pssa ->
  forall fuel refs,
    (forall r, In r refs -> rank r < fuel) ->
    exists closed, isClosed' (S fuel) refs = Done closed.
Proof.
  intros Hacyclic Hwf fuel refs Hrank.
  pose proof (isClosed_finishes isTargetType pssa targetTypes rank Hacyclic
                                fuel refs Hrank) as Hfin.
  pose proof (isClosed_no_panic isTargetType pssa targetTypes (S fuel) Hwf refs)
    as Hnp.
  destruct (isClosed' (S fuel) refs) as [closed | |];
    [now exists closed | now elim Hnp | now elim Hfin].
Qed.

(** X14. What Run reports for one closable value, when the check of the
    value returns: after the diagnostics reported before, "not closed" at
    the instruction of the value exactly when isClosed answers false on
    its referrers, and then only "Close should use defer" diagnostics at
    calls whose value is named Close. *)
Theorem checkTarget_reports (fuel : nat) (tv : targetValue)
        (d d' : list Diagnostic) :
  checkTarget' fuel tv d = Done d' ->
  exists refs closed e,
    Referrers (value tv) = Some refs /\
    isClosed' fuel refs = Done closed /\
    d' = d ++ (if closed then []
               else [mkDiag (Pos (instr tv)) msgNotClosed]) ++ e /\
    Forall (useDeferAt pssa) e.
Proof.
  rewrite checkTarget_frame. intros H.
  apply prepend_inv in H as (e1 & He1 & ->).
  destruct (checkTarget_emits isTargetType pssa targetTypes fuel tv e1 He1)
    as (refs & closed & e & Hrefs & Hclosed & -> & Huse).
  now exists refs, closed, e.
Qed.

(** The check of a closable value returns: when the links the walks
    follow are acyclic, with a rank below the fuel, no call lacks a value,
    no stored address lacks a referrer list, and the value has a referrer
    list, checkTarget returns the diagnostics of the value. *)
Lemma checkTarget_returns (rank : iid -> nat) (fuel : nat)
        (tv : targetValue) (d : list Diagnostic) :
  acyclic pssa rank ->
  (forall i, rank i < fuel) ->
  noNilDeref pssa ->
  noNilStore pssa ->
  Referrers (value tv) <> None ->
  exists d', checkTarget' (S fuel) tv d = Done d'.
Proof.
  intros Hacyclic Hbound Hwf Hstore Hrefs. unfold checkTarget.
  destruct (Referrers (value tv)) as [refs |]; [| now elim Hrefs].
  cbn [bind deref].
  destruct (isClosed_returns rank Hacyclic Hwf fuel refs
                             (fun r _ => Hbound r)) as [closed ->].
  cbn [bind].
  apply (checkDeferred_returns rank Hacyclic Hstore). intros r _. apply Hbound.
Qed.

End Returns.

Section RunReturns.

Variable isTargetType : gotype -> list any -> bool.
Variable getTargetTypes : SSA -> list string -> list any.
Variable getClosableValues :
  SSA -> BasicBlock -> nat -> list any -> list targetValue.

(** X15. Run returns: on a program whose followed links are acyclic, with
    a rank below the fuel, where no call lacks a value, no stored address
    lacks a referrer list and every closable value has a referrer list,
    Run returns a pass, with the same program and the diagnostics of
    before as a prefix of its diagnostics. *)
Theorem Run_returns (rank : iid -> nat) (fuel : nat) (pass : Pass)
        (pssa : SSA) :
  ResultOf pass = Some pssa ->
  acyclic pssa rank ->
  (forall i, rank i < fuel) ->
  noNilDeref pssa ->
  noNilStore pssa ->
  (forall tv,
      In tv (closableValues getClosableValues pssa
                            (getTargetTypes pssa sqlPackages)) ->
      Referrers (value tv) <> None) ->
  exists e,
    Run isTargetType getTargetTypes getClosableValues (S fuel) pass
    = Done (mkPass (Some pssa) (Diagnostics pass ++ e)).
Proof.
  intros Hssa Hacyclic Hbound Hwf Hstore Hvalues. unfold Run. rewrite Hssa.
  destruct (getTargetTypes pssa sqlPackages) as [| tt tts] eqn:Htts.
  - exists []. rewrite app_nil_r. destruct pass as [s ds]. cbn in *.
    now rewrite Hssa.
  - rewrite scanFuncs_flat.
    rewrite (forEach_frame (checkTarget isTargetType pssa (tt :: tts) (S fuel)) _
                           (checkTarget_frame isTargetType pssa (tt :: tts)
                                              (S fuel))).
    destruct (forEach_returns
                (checkTarget isTargetType pssa (tt :: tts) (S fuel))
                (closableValues getClosableValues pssa (tt :: tts)))
      with (s := @nil Diagnostic) as [e He].
    + intros tv Hin s.
      apply (checkTarget_returns isTargetType pssa (tt :: tts) rank fuel tv s);
        auto.
    + exists e. now rewrite He.
Qed.

End RunReturns.

(** ** The statements on the concrete programs *)

Import Examples.

Lemma isClosed_first_match_witness :
  isClosed isTargetType_spec bareClose (targets bareClose) 1 [1; 2] = Done true
  /\ isClosed isTargetType_spec bareClose (targets bareClose) 1 [1] = Done false.
Proof.
  assert (Hpre : Forall (goesOn isTargetType_spec bareClose (targets bareClose) 0)
                        [1]).
  { constructor; [| constructor]. exists actionUnhandled.
    split; [reflexivity | split; discriminate]. }
  destruct (isClosed_first_match isTargetType_spec bareClose (targets bareClose)
                                 0 [1] Hpre)
    as (_ & Hfalse & _ & Hfirst & _).
  split; [| exact Hfalse].
  exact (Hfirst 2 [] actionClosed eq_refl (or_introl eq_refl)).
Defined.

Lemma passed_is_inert_witness :
  checkTarget isTargetType_spec merged (targets merged) 1
              (mkTarget (reg "t0" ptrRows [2]) (query 10 "t0" [2])) []
  = Done [mkDiag 10 msgNotClosed].
Proof.
  refine (proj2 (proj2 (proj2
    (passed_is_inert isTargetType_spec merged (targets merged) 0
                     (mkTarget (reg "t0" ptrRows [2]) (query 10 "t0" [2]))
                     [2] [] eq_refl _)))).
  constructor; [| constructor]. left. reflexivity.
Defined.

(** Both results of the merged program are reported, although the merged
    value is closed by a deferred call. *)
Example merged_run :
  run 1 merged
  = Done (mkPass (Some merged)
                 [mkDiag 10 msgNotClosed; mkDiag 20 msgNotClosed]).
Proof. reflexivity. Qed.

Lemma Run_no_target_types_witness :
  run 0 noSql = Done (mkPass (Some noSql) []).
Proof.
  exact (proj2 (Run_no_target_types isTargetType_spec getTargetTypes_spec
                                    getClosableValues_spec 0
                                    (mkPass (Some noSql) []) noSql
                                    eq_refl eq_refl)).
Defined.

Lemma checkDeferred_first_cleanup_witness :
  checkTarget isTargetType_spec bareClose (targets bareClose) 1
              (mkTarget (reg "t0" ptrRows [1; 2]) (query 10 "t0" [1; 2])) []
  = Done [mkDiag 30 msgUseDefer].
Proof.
  refine (proj2 (proj2 (proj2
    (checkDeferred_first_cleanup isTargetType_spec bareClose
                                 (targets bareClose) 0)))
    (mkTarget (reg "t0" ptrRows [1; 2]) (query 10 "t0" [1; 2]))
    [1] 2 [] [] eq_refl _ _ eq_refl eq_refl).
  - constructor; [| constructor]. exists actionUnhandled.
    split; [reflexivity | split; discriminate].
  - constructor; [| constructor]. reflexivity.
Defined.

(** The whole run on [bareClose]: one diagnostic, at the bare call. *)
Example bareClose_run :
  run 1 bareClose = Done (mkPass (Some bareClose) [mkDiag 30 msgUseDefer]).
Proof. reflexivity. Qed.

(** A deferred Close on an os.File is classified as Closed: the receiver is
    not of a target type, and the callee has no body that could close. And
    a call of a method of the target type that is not named Close is
    classified as Unhandled although the scan of its body would find a
    block that closes. *)
Lemma defer_close_ignores_receiver :
  (getAction isTargetType_spec bareClose (targets bareClose) 0 deferFileClose
   = Done actionClosed /\
   ~ (calleeIsTarget isTargetType_spec bareClose (targets bareClose)
                     (static "Close" fFileClose) (fn "Close" fFileClose) = true
      \/ someBlockCloses
           (isClosed isTargetType_spec bareClose (targets bareClose) 0)
           (Blocks (funcAt bareClose fFileClose)))) /\
  (getAction isTargetType_spec ownMethod (targets ownMethod) 1
             (instrAt ownMethod 1) = Done actionUnhandled /\
   StaticCallee (static "finish" fFinish) = Some fFinish /\
   someBlockCloses
     (isClosed isTargetType_spec ownMethod (targets ownMethod) 1)
     (Blocks (funcAt ownMethod fFinish))).
Proof.
  split; split; try reflexivity.
  - intros [H | (before & b & after & Heq & _)]; [discriminate |].
    now destruct before.
  - split; [reflexivity |].
    exists [], (mkBlock [2]), []. repeat split. constructor.
Qed.

Lemma closed_policy_witness :
  getAction isTargetType_spec bareClose (targets bareClose) 0 deferFileClose
  = Done actionClosed /\
  getAction isTargetType_spec bareClose (targets bareClose) 0
            (instrAt bareClose 2) = Done actionClosed.
Proof.
  split.
  - destruct (closed_policy isTargetType_spec bareClose (targets bareClose) 0
                            deferFileClose (static "Close" fFileClose)
                            (fn "Close" fFileClose) eq_refl)
      as [_ Hdefer].
    destruct (Hdefer eq_refl) as [Hiff _].
    apply Hiff. left. reflexivity.
  - destruct (closed_policy isTargetType_spec bareClose (targets bareClose) 0
                            (instrAt bareClose 2) (static "Close" fClose)
                            (fn "Close" fClose) eq_refl)
      as [Hcall _].
    destruct (Hcall (ex_intro _ _ eq_refl) eq_refl) as [Hiff _].
    apply Hiff. left. split; reflexivity.
Defined.

(** A call through an interface is classified as Unhandled, not as
    UnvaluedCall; a deferred Close through an interface is classified as
    Closed, not as UnvaluedDefer. Neither target is statically resolved. *)
Lemma unresolved_is_not_unvalued :
  (StaticCallee (mkCall (Some (reg "q" (Named "main" "Querier") [0]))
                        (Some "Query")) = None /\
   getAction isTargetType_spec bareClose (targets bareClose) 0 invokeQuery
   = Done actionUnhandled) /\
  (StaticCallee (mkCall (Some (reg "c" (Named "io" "Closer") [0]))
                        (Some "Close")) = None /\
   getAction isTargetType_spec bareClose (targets bareClose) 0 deferInvokeClose
   = Done actionClosed).
Proof. repeat split. Qed.

Lemma unresolved_policy_witness :
  getAction isTargetType_spec bareClose (targets bareClose) 3 invokeQuery
  = Done actionUnhandled /\
  getAction isTargetType_spec bareClose (targets bareClose) 3 deferIndirect
  = Done actionUnvaluedDefer.
Proof.
  split.
  - destruct (unresolved_policy isTargetType_spec bareClose (targets bareClose)
                                3 invokeQuery
                                (mkCall (Some (reg "q" (Named "main" "Querier") [0]))
                                        (Some "Query"))
                                (reg "q" (Named "main" "Querier") [0]) eq_refl)
      as [Hcall _].
    exact (proj1 (proj1 (Hcall (ex_intro _ _ eq_refl)) eq_refl)).
  - destruct (unresolved_policy isTargetType_spec bareClose (targets bareClose)
                                3 deferIndirect
                                (mkCall (Some (reg "g" funcT [0])) None)
                                (reg "g" funcT [0]) eq_refl)
      as [_ Hdefer].
    exact (proj1 (Hdefer eq_refl eq_refl)).
Defined.

Lemma returned_not_followed_witness :
  getAction isTargetType_spec returned (targets returned) 0
            (instrAt returned 1) = Done actionReturned /\
  checkTarget isTargetType_spec returned (targets returned) 1
              (mkTarget (reg "t0" ptrRows [1]) (query 10 "t0" [1])) []
  = Done [mkDiag 10 msgNotClosed].
Proof.
  assert (Hret : returnsTarget (targets returned) (instrAt returned 1)).
  { exists (reg "t0" ptrRows [1]), (AnyType ptrRows), ptrRows.
    repeat split; now left. }
  destruct (returned_not_followed isTargetType_spec returned (targets returned) 0)
    as (Hclass & _ & Hreport).
  split.
  - exact (proj1 (Hclass (instrAt returned 1) (or_introl Hret))).
  - refine (proj2 (Hreport (mkTarget (reg "t0" ptrRows [1])
                                     (query 10 "t0" [1])) [1] [] eq_refl _)).
    constructor; [exact Hret | constructor].
Defined.

Lemma delegated_acyclic : acyclic delegated delegatedRank.
Proof.
  intros i l j Hl Hj.
  destruct i as [| [| [| i]]]; cbn in Hl.
  - contradiction.
  - destruct Hl as [<- | []]. destruct Hj as [<- | []]. cbn. lia.
  - contradiction.
  - destruct i; contradiction.
Qed.

Lemma delegated_noNilDeref : noNilDeref delegated.
Proof.
  intros i. destruct i as [| [| [| i]]]; cbn; try discriminate.
  destruct i; exact I.
Qed.

Lemma walk_terminates_when_acyclic_witness :
  exists closed,
    isClosed isTargetType_spec delegated (targets delegated) 3 [1]
    = Done closed.
Proof.
  refine (proj2 (proj2 (proj1 walk_terminates_when_acyclic
                              isTargetType_spec delegated (targets delegated)
                              delegatedRank 2 [1] delegated_acyclic _))
                delegated_noNilDeref).
  intros r [<- | []]. cbn. lia.
Defined.

Lemma Run_deterministic_witness :
  Run isTargetType_spec getTargetTypes_spec getClosableValues_spec 4
      (mkPass (Some bareClose) [mkDiag 30 msgUseDefer])
  = Done (mkPass (Some bareClose)
                 [mkDiag 30 msgUseDefer; mkDiag 30 msgUseDefer]).
Proof.
  destruct (Run_deterministic isTargetType_spec getTargetTypes_spec
                              getClosableValues_spec 1
                              (mkPass (Some bareClose) [])
                              (mkPass (Some bareClose) [mkDiag 30 msgUseDefer])
                              eq_refl)
    as (_ & _ & (emitted & Hemitted & Hagain) & _).
  cbn in Hemitted. subst emitted.
  apply (Hagain 4). lia.
Defined.

Lemma dead_store_ends_walk_witness :
  checkDeferred deadStore (targets deadStore) 1 [1; 2] false [] = Done [] /\
  checkDeferred deadStore (targets deadStore) 1 [2] false []
  = Done [mkDiag 30 msgUseDefer].
Proof.
  destruct (dead_store_ends_walk deadStore (targets deadStore) 0 1 eq_refl)
    as (_ & _ & Hbare).
  exact (Hbare 2 [] [] eq_refl).
Defined.

(** The whole run on [deadStore]: the bare call is not reported. *)
Example deadStore_run :
  run 1 deadStore = Done (mkPass (Some deadStore) []).
Proof. reflexivity. Qed.

(** ** The further statements on the concrete programs *)

Lemma neverClosed_noCloseName : noCloseName neverClosed.
Proof.
  intros i. destruct i as [| [| i]]; cbn; [split; reflexivity ..|].
  destruct i; split; reflexivity.
Qed.

Lemma nothing_named_Close_nothing_closed_witness :
  isClosed isTargetType_spec neverClosed (targets neverClosed) 1 [1]
  <> Done true.
Proof.
  exact (proj1 (nothing_named_Close_nothing_closed
                  isTargetType_spec neverClosed (targets neverClosed)
                  neverClosed_noCloseName) 1 [1]).
Defined.

Lemma getAction_range_witness :
  isMergeOrBox (instrAt merged 2) = true.
Proof.
  destruct (getAction_range isTargetType_spec merged (targets merged) 0
                            (instrAt merged 2) actionPassed eq_refl)
    as (_ & Hpassed & _).
  exact (Hpassed eq_refl).
Defined.

Lemma nil_call_value_witness :
  isClosed isTargetType_spec withoutValue (targets withoutValue) 1 [1; 2]
  = Panics.
Proof.
  refine (proj1 (proj2
    (nil_call_value isTargetType_spec withoutValue (targets withoutValue)
                    0 [] 1 [2] (mkCall None None)
                    (or_intror (ex_intro _ _ eq_refl)) eq_refl _))).
  constructor.
Defined.

Lemma nil_store_referrers_witness :
  checkTarget isTargetType_spec storedGlobal (targets storedGlobal) 1
              (mkTarget (reg "t0" ptrRows [1; 2]) (query 10 "t0" [1; 2])) []
  = Panics.
Proof.
  refine (proj2 (proj2 (proj2
    (nil_store_referrers isTargetType_spec storedGlobal (targets storedGlobal)
                         0 [] 1 [2]
                         (mkValue "kept" (Pointer ptrRows) None KValue)
                         eq_refl eq_refl _))) _
    (mkTarget (reg "t0" ptrRows [1; 2]) (query 10 "t0" [1; 2])) [] eq_refl).
  - discriminate.
  - constructor.
Defined.

Lemma dead_store_hides_bare_close_witness :
  checkTarget isTargetType_spec Examples.deadStore (targets Examples.deadStore)
              1 (mkTarget (reg "t0" ptrRows [1; 2]) (query 10 "t0" [1; 2])) []
  = Done [].
Proof.
  refine (proj1 (proj2
    (dead_store_hides_bare_close isTargetType_spec Examples.deadStore
                                 (targets Examples.deadStore) 0
                                 (mkTarget (reg "t0" ptrRows [1; 2])
                                           (query 10 "t0" [1; 2]))
                                 [] 1 [2] [] eq_refl _ _ eq_refl)) eq_refl);
    constructor.
Defined.

Lemma stored_capture_handled_witness :
  getAction isTargetType_spec captured (targets captured) 3
            (instrAt captured 1) = Done actionHandled.
Proof.
  destruct (stored_capture_handled isTargetType_spec captured (targets captured)
                                   3 (instrAt captured 1)
                                   (reg "t1" (Pointer ptrRows) [1; 2]) 1 [2]
                                   eq_refl) as [Hiff _];
    [discriminate | reflexivity |].
  apply Hiff. exists [], (mkBlock [4; 5]), [].
  repeat split. constructor.
Defined.

(** The whole run on [captured]: the value is closed through the closure
    that captures it, and nothing is reported. *)
Example captured_run :
  run 3 captured = Done (mkPass (Some captured) []).
Proof. reflexivity. Qed.

Lemma checkDeferred_reports_bare_calls_witness :
  exists e,
    [mkDiag 30 msgUseDefer] = [] ++ e /\ Forall (useDeferAt bareClose) e.
Proof.
  exact (checkDeferred_reports_bare_calls bareClose (targets bareClose)
                                          1 [1; 2] false []
                                          [mkDiag 30 msgUseDefer] eq_refl).
Defined.

Lemma Run_scan_order_witness :
  run 0 parameterOnly = Done (mkPass (Some parameterOnly) []).
Proof.
  exact (proj2 (proj2 (Run_scan_order isTargetType_spec getTargetTypes_spec
                                      getClosableValues_spec 0
                                      (mkPass (Some parameterOnly) [])
                                      parameterOnly eq_refl)
                      eq_refl)).
Defined.

Lemma Run_reports_witness :
  exists e,
    [mkDiag 10 msgNotClosed; mkDiag 20 msgNotClosed] = [] ++ e /\
    Forall (fun x =>
              notClosedAt (closableValues getClosableValues_spec merged
                                          (getTargetTypes_spec merged sqlPackages))
                          x
              \/ useDeferAt merged x) e /\
    countNotClosed e
    <= List.length (closableValues getClosableValues_spec merged
                                   (getTargetTypes_spec merged sqlPackages)).
Proof.
  exact (Run_reports isTargetType_spec getTargetTypes_spec
                     getClosableValues_spec 1
                     (mkPass (Some merged) [])
                     (mkPass (Some merged)
                             [mkDiag 10 msgNotClosed; mkDiag 20 msgNotClosed])
                     merged eq_refl eq_refl).
Defined.

Lemma checkTarget_reports_witness :
  exists refs closed e,
    Some [1; 2] = Some refs /\
    isClosed isTargetType_spec bareClose (targets bareClose) 1 refs
    = Done closed /\
    [mkDiag 30 msgUseDefer]
    = [] ++ (if closed then [] else [mkDiag 10 msgNotClosed]) ++ e /\
    Forall (useDeferAt bareClose) e.
Proof.
  exact (checkTarget_reports isTargetType_spec bareClose (targets bareClose) 1
                             (mkTarget (reg "t0" ptrRows [1; 2])
                                       (query 10 "t0" [1; 2]))
                             [] [mkDiag 30 msgUseDefer] eq_refl).
Defined.

Lemma captured_acyclic : acyclic captured capturedRank.
Proof.
  intros i l j Hl Hj.
  destruct i as [| [| [| [| [| [| i]]]]]]; cbn in Hl;
    try contradiction;
    try (destruct Hl as [<- | []];
         repeat (destruct Hj as [<- | Hj]; [cbn; lia |]); contradiction).
  destruct i; contradiction.
Qed.

Lemma captured_noNilDeref : noNilDeref captured.
Proof.
  intros i. destruct i as [| [| [| [| [| [| i]]]]]]; cbn;
    try discriminate; try exact I; [right; discriminate |].
  destruct i; exact I.
Qed.

Lemma captured_noNilStore : noNilStore captured.
Proof.
  intros i addr. destruct i as [| [| [| [| [| [| i]]]]]]; cbn;
    try discriminate; [intros [= <-]; discriminate |].
  destruct i; discriminate.
Qed.

Lemma Run_returns_witness :
  exists e,
    run 4 captured = Done (mkPass (Some captured) ([] ++ e)).
Proof.
  refine (Run_returns isTargetType_spec getTargetTypes_spec
                      getClosableValues_spec capturedRank 3
                      (mkPass (Some captured) []) captured eq_refl
                      captured_acyclic _ captured_noNilDeref
                      captured_noNilStore _).
  - intros i. destruct i as [| [| [| [| [| i]]]]]; cbn; lia.
  - intros tv [<- | []]. discriminate.
Defined.

Lemma handled_through_referrers_witness :
  getAction isTargetType_spec captured (targets captured) 1
            (instrAt captured 4) = Done actionHandled.
Proof.
  destruct (handled_through_referrers isTargetType_spec captured
                                      (targets captured) 1
                                      (instrAt captured 4) [5])
    as [Hderef _].
  destruct (Hderef ptrRows eq_refl) as [_ Hiff].
  apply Hiff. split; reflexivity.
Defined.

(** C4. A bare Close on a pgx.Rows, which is an interface of an allow-listed
    library. The call invokes the method: its value is the receiver, named
    as a register, and the tests of lines 207-208 and 331 read the name of
    the value only. So the call is target-typed and yet Unhandled, the walk
    of checkDeferred steps over it without a diagnostic, and Run reports
    the value as not closed and says nothing of the bare call. The
    deferred sibling, which tests the method (lines 168-172 and 327-329),
    is Closed and leaves the run without a diagnostic; a direct bare Close
    (on a sql.Rows) is reported as the claim says. *)
Theorem bare_interface_close_missed :
  (calleeIsTarget isTargetType_spec pgxBareClose (targets pgxBareClose)
                  (invokeRows "Close" [1; 2]) (reg "t0" pgxRows [1; 2]) = true /\
   Method (invokeRows "Close" [1; 2]) = Some closeMethod /\
   getAction isTargetType_spec pgxBareClose (targets pgxBareClose) 1
             (instrAt pgxBareClose 2) = Done actionUnhandled /\
   isClosed isTargetType_spec pgxBareClose (targets pgxBareClose) 1 [1; 2]
   = Done false /\
   checkDeferred pgxBareClose (targets pgxBareClose) 1 [1; 2] false []
   = Done [] /\
   run 1 pgxBareClose
   = Done (mkPass (Some pgxBareClose) [mkDiag 10 msgNotClosed])) /\
  (getAction isTargetType_spec pgxDeferredClose (targets pgxDeferredClose) 1
             (instrAt pgxDeferredClose 1) = Done actionClosed /\
   run 1 pgxDeferredClose = Done (mkPass (Some pgxDeferredClose) [])) /\
  run 1 bareClose = Done (mkPass (Some bareClose) [mkDiag 30 msgUseDefer]).
Proof. repeat split. Qed.
